(** * algokit.core.utils: a verification development

    A shallow embedding of [src/algokit/core/utils.py] and the properties
    its specification states about it.

    Conventions.
    - A Python [str] is a Rocq [string]; a character is a code point below
      256.  On that range the only decimal digits (regex class [\d], and the
      digits [int] accepts) are ['0'..'9'].
    - A Python call that may raise returns a [result]: [Ok v] for a normal
      return, [Raise e] for a raised exception.
    - Operating-system facilities (the search path, the file system, child
      processes, the [.env] parser) are oracles: Section variables of the
      operation that consults them.
    - [int] is modelled on unbounded integers; the limit of the interpreter
      on the number of digits of a numeral and [repr] are parameters of
      the operations that depend on them.
    - [sys.stdout] is a parameter of the spinner: a stream that takes or
      refuses each write and flush. *)

From Stdlib Require Import ZArith QArith List String Ascii Bool Lia.
From Stdlib Require DecimalString DecimalNat DecimalFacts.
From stdpp Require Import base option list strings gmap.

Open Scope Z_scope.
Open Scope string_scope.
Open Scope list_scope.

(* String concatenation unfolds on a constructor-headed first argument. *)
#[global] Arguments String.append !_ _ : simpl nomatch.

(** ** Exceptions and results *)

(** The exceptions the module meets.  [UserError derives_exception name]
    stands for any other exception class; its flag says whether the class
    derives from [Exception] or only from [BaseException]. *)
Inductive exn : Type :=
| ValueError (msg : string)
| TypeError (msg : string)
| OSError (msg : string)
| ClickException (msg : string)
| SystemExit (code : Z)
| KeyboardInterrupt
| UserError (derives_exception : bool) (name : string).

(** [isinstance(e, Exception)]: what a clause [except Exception] catches. *)
Definition is_Exception (e : exn) : bool :=
  match e with
  | SystemExit _ | KeyboardInterrupt => false
  | UserError d _ => d
  | _ => true
  end.

(** [isinstance(e, OSError)]: what a clause [except OSError] catches. *)
Definition is_OSError (e : exn) : bool :=
  match e with
  | OSError _ => true
  | _ => false
  end.

Inductive result (A : Type) : Type :=
| Ok (a : A)
| Raise (e : exn).
Arguments Ok {A} a.
Arguments Raise {A} e.

(** Sequencing: an exception of the first computation skips the rest. *)
#[global] Instance result_bind : MBind result :=
  fun A B k r =>
    match r with
    | Ok a => k a
    | Raise e => Raise e
    end.

#[global] Instance result_ret : MRet result := fun A a => Ok a.

(** [f <$> r]: [f] applied to what a call returns. *)
#[global] Instance result_fmap : FMap result :=
  fun A B f r =>
    match r with
    | Ok a => Ok (f a)
    | Raise e => Raise e
    end.

(** [[f(x) for x in l]] and [map(f, l)] consumed in full: the elements are
    evaluated from left to right and the first exception ends the loop. *)
Fixpoint comprehension {A B : Type} (f : A -> result B) (l : list A)
  : result (list B) :=
  match l with
  | [] => Ok []
  | a :: l' => b ← f a; bs ← comprehension f l'; Ok (b :: bs)
  end.

(** ** Characters *)

Definition is_digit (c : ascii) : bool :=
  let n := nat_of_ascii c in ((48 <=? n) && (n <=? 57))%nat.

Definition digit_value (c : ascii) : Z := Z.of_nat (nat_of_ascii c) - 48.

(** ** Strings *)

(** [s.split(sep)] with a one-character separator: never the empty list. *)
Fixpoint split_on (sep : ascii) (s : string) : list string :=
  match s with
  | EmptyString => [EmptyString]
  | String c s' =>
      if Ascii.eqb c sep then EmptyString :: split_on sep s'
      else match split_on sep s' with
           | seg :: rest => String c seg :: rest
           | [] => [String c EmptyString]
           end
  end.

(** [c in s] for a character [c]. *)
Fixpoint contains_char (c : ascii) (s : string) : bool :=
  match s with
  | EmptyString => false
  | String d s' => Ascii.eqb d c || contains_char c s'
  end.

(** ** Version helpers *)

Module Version.

(** *** [int] on a [str] *)

(** The white space [int] skips around a numeral: the white space of C
    (tab, line feed, vertical tab, form feed, carriage return, space) and,
    of the code points from 128 to 255, the two that are white space to
    Unicode, U+0085 and U+00A0, which [int] first turns into spaces.  The
    separators U+001C to U+001F are white space to [str.isspace] but not
    to [int]. *)
Definition int_space (c : ascii) : bool :=
  let n := nat_of_ascii c in
  (((9 <=? n) && (n <=? 13)) || (n =? 32) || (n =? 133) || (n =? 160))%nat.

Fixpoint skip_spaces (s : string) : string :=
  match s with
  | String c s' => if int_space c then skip_spaces s' else s
  | EmptyString => EmptyString
  end.

(** The digits and underscores at the head of [s], as the scan of the
    interpreter reads them: the value of the digits, their number, and what
    follows them.  [None] for two underscores in a row and for an
    underscore that no digit follows. *)
Fixpoint scan_digits (after_underscore : bool) (acc : Z) (digits : nat)
    (s : string) : option (Z * nat * string) :=
  match s with
  | String c s' =>
      if is_digit c then
        scan_digits false (acc * 10 + digit_value c) (S digits) s'
      else if Ascii.eqb c "_" then
        if after_underscore then None else scan_digits true acc digits s'
      else if after_underscore then None else Some (acc, digits, s)
  | EmptyString =>
      if after_underscore then None else Some (acc, digits, EmptyString)
  end.

(** [_PY_LONG_MAX_STR_DIGITS_THRESHOLD]: no limit applies to a numeral of
    at most this many digits. *)
Definition int_max_str_digits_threshold : nat := 640.

(** A natural number in decimal. *)
Definition nat_text (n : nat) : string :=
  DecimalString.NilEmpty.string_of_uint (Nat.to_uint n).

Section Int.

(** [sys.get_int_max_str_digits()]: the most digits [int] takes in a
    numeral, [0] for no limit; 4300 unless the interpreter was told
    otherwise. *)
Variable int_max_str_digits : nat.

(** [repr] of a [str]. *)
Variable repr : string -> string.

Definition exceeds_limit (digits : nat) : bool :=
  ((int_max_str_digits_threshold <? digits)
   && (0 <? int_max_str_digits) && (int_max_str_digits <? digits))%nat.

(** The errors of [int]: the format [%.200R] shows at most 200 characters
    of the [repr] of the argument. *)
Definition int_error (s : string) : exn :=
  ValueError ("invalid literal for int() with base 10: "
              ++ substring 0 200 (repr s)).

Definition limit_error (digits : nat) : exn :=
  ValueError ("Exceeds the limit (" ++ nat_text int_max_str_digits
              ++ " digits) for integer string conversion: value has "
              ++ nat_text digits
              ++ " digits; use sys.set_int_max_str_digits() to increase the"
              ++ " limit").

(** [int(s)] for a [str] argument: white space, a sign, the digits, white
    space.  The limit on the digits is checked when the digits have been
    scanned, before what follows them is looked at. *)
Definition py_int (s : string) : result Z :=
  let t := skip_spaces s in
  let '(negative, t) :=
    match t with
    | String "+" t' => (false, t')
    | String "-" t' => (true, t')
    | _ => (false, t)
    end in
  let scanned :=
    match t with
    | String "_" _ => None
    | _ => scan_digits false 0 0 t
    end in
  match scanned with
  | None => Raise (int_error s)
  | Some (n, digits, rest) =>
      if exceeds_limit digits then Raise (limit_error digits)
      else if (digits =? 0)%nat then Raise (int_error s)
      else match skip_spaces rest with
           | EmptyString => Ok (if negative then - n else n)
           | String _ _ => Raise (int_error s)
           end
  end.

(** [tuple(map(int, s.split(".")))] *)
Definition version_tuple (s : string) : result (list Z) :=
  comprehension py_int (split_on "." s).

(** Comparison [v >= w] of two tuples of integers: the first position where
    the items differ decides; when there is none the lengths decide. *)
Fixpoint tuple_ge (v w : list Z) : bool :=
  match v, w with
  | x :: v', y :: w' => if (x =? y)%Z then tuple_ge v' w' else (y <=? x)%Z
  | [], _ :: _ => false
  | _, [] => true
  end.

Definition is_minimum_version (system_version minimum_version : string)
  : result bool :=
  system_version_as_tuple ← version_tuple system_version;
  minimum_version_as_tuple ← version_tuple minimum_version;
  Ok (tuple_ge system_version_as_tuple minimum_version_as_tuple).

End Int.

(** [repr] of a [str] without quotes, backslashes and unprintable
    characters. *)
Definition repr_plain (s : string) : string := "'" ++ s ++ "'".

(** *** The specification's reading of a version string *)

(** A numeric segment: a non-empty run of decimal digits. *)
Fixpoint all_digits (s : string) : bool :=
  match s with
  | EmptyString => true
  | String c s' => is_digit c && all_digits s'
  end.

Definition numeric_segment (s : string) : bool :=
  match s with
  | EmptyString => false
  | String _ _ => all_digits s
  end.

(** A version as the specification reads it: the numerals of its segments.
    A numeral is a run of decimal digits, [Decimal.uint] of the library;
    the empty run [Nil] is none.  The library writes a numeral
    ([string_of_uint]), tells the number it denotes ([Z.of_uint]) and
    counts its digits ([nb_digits]). *)
Definition numeral_text (u : Decimal.uint) : string :=
  DecimalString.NilEmpty.string_of_uint u.

(** The version string of a sequence of numerals: dots between them. *)
Definition dotted (segments : list Decimal.uint) : string :=
  String.concat "." (map numeral_text segments).

(** The tuple of integers of a sequence of numerals. *)
Definition numbers (segments : list Decimal.uint) : list Z :=
  map Z.of_uint segments.



(** Strict lexicographic order on integer sequences; a proper prefix comes
    before its extensions. *)
Inductive lex_lt : list Z -> list Z -> Prop :=
| lex_lt_prefix y w : lex_lt [] (y :: w)
| lex_lt_head x y v w : (x < y)%Z -> lex_lt (x :: v) (y :: w)
| lex_lt_tail x v w : lex_lt v w -> lex_lt (x :: v) (x :: w).


(** The order of the specification on tuples of one arity: either the tuples
    are equal, or at the first position where they differ the item of [v]
    is the larger one. *)
Definition lex_ge_same_arity (v w : list Z) : Prop :=
  v = w \/
  exists p x y v' w', v = p ++ x :: v' /\ w = p ++ y :: w' /\ (y < x)%Z.


(** A numeral of [n] digits, all of them [1]. *)
Definition ones (n : nat) : Decimal.uint :=
  Nat.iter n Decimal.D1 Decimal.Nil.

End Version.


(** ** Regular-expression search, for [extract_version_triple] *)

Module VersionTriple.

(** The fragment of [re] the pattern uses: a character class or an escaped
    literal, once or greedily one or more times. *)
Inductive atom : Type :=
| Digit
| Lit (c : ascii).

Inductive item : Type :=
| One (a : atom)
| Plus (a : atom).

Definition atom_matches (a : atom) (c : ascii) : bool :=
  match a with
  | Digit => is_digit c
  | Lit d => Ascii.eqb c d
  end.

(** Backtracking match of the items [p] at the start of a string: the
    length matched, if any.  A [Plus] first tries to take one more
    character and gives it back when the rest of the pattern fails. *)
Fixpoint match_here (p : list item) : string -> option nat :=
  match p with
  | [] => fun _ => Some 0%nat
  | One a :: p' =>
      fun s =>
        match s with
        | String c s' =>
            if atom_matches a c then S <$> match_here p' s' else None
        | EmptyString => None
        end
  | Plus a :: p' =>
      fix more (s : string) : option nat :=
        match s with
        | String c s' =>
            if atom_matches a c then
              match more s' with
              | Some n => Some (S n)
              | None => S <$> match_here p' s'
              end
            else None
        | EmptyString => None
        end
  end.

(** [re.search]: the start positions are tried from left to right; the
    result is the start and the length of the match. *)
Fixpoint search (p : list item) (s : string) : option (nat * nat) :=
  match match_here p s with
  | Some n => Some (0%nat, n)
  | None =>
      match s with
      | String _ s' => prod_map S id <$> search p s'
      | EmptyString => None
      end
  end.

(** [r"\d+\.\d+\.\d+"] *)
Definition version_pattern : list item :=
  [Plus Digit; One (Lit "."); Plus Digit; One (Lit "."); Plus Digit].

Definition extract_version_triple (version_str : string) : result string :=
  match search version_pattern version_str with
  | None => Raise (ValueError "Unable to parse version number")
  | Some (start, len) => Ok (substring start len version_str)
  end.

(** *** The specification's reading *)

(** A string of the shape [X.Y.Z], each of X, Y, Z a non-empty run of
    digits. *)
Definition is_triple (m : string) : Prop :=
  exists x y z,
    Version.numeric_segment x = true
    /\ Version.numeric_segment y = true
    /\ Version.numeric_segment z = true
    /\ m = x +:+ "." +:+ y +:+ "." +:+ z.

(** [m] occurs in [s] after [pre] and before [post]. *)
Definition occurs_at (s pre m post : string) : Prop := s = pre +:+ m +:+ post.

Definition starts_with_digit (s : string) : bool :=
  match s with
  | String c _ => is_digit c
  | EmptyString => false
  end.

(** [m] is the first X.Y.Z substring of [s]: no such substring starts
    further left, and [m] is the longest one that starts where it does. *)
Definition first_triple (s m : string) : Prop :=
  exists pre post,
    occurs_at s pre m post
    /\ is_triple m
    /\ (forall pre' m' post',
           occurs_at s pre' m' post' -> is_triple m' ->
           (String.length pre <= String.length pre')%nat)
    /\ (forall m' post',
           m +:+ post = m' +:+ post' -> is_triple m' ->
           (String.length m' <= String.length m)%nat).

(** The strings a pattern denotes. *)
Inductive matches : list item -> string -> Prop :=
| matches_nil : matches [] ""
| matches_one a c p w :
    atom_matches a c = true -> matches p w ->
    matches (One a :: p) (String c w)
| matches_plus_stop a c p w :
    atom_matches a c = true -> matches p w ->
    matches (Plus a :: p) (String c w)
| matches_plus_more a c p w :
    atom_matches a c = true -> matches (Plus a :: p) w ->
    matches (Plus a :: p) (String c w).

Definition head_matches (a : atom) (s : string) : bool :=
  match s with
  | String c _ => atom_matches a c
  | EmptyString => false
  end.

(** What greed leaves behind: when the pattern ends in a [Plus], the text
    after the match does not start with one more character of its class. *)
Fixpoint greedy_end (p : list item) (post : string) : Prop :=
  match p with
  | [] => True
  | it :: p' =>
      match p' with
      | [] => match it with
              | Plus a => head_matches a post = false
              | One _ => True
              end
      | _ :: _ => greedy_end p' post
      end
  end.

End VersionTriple.

(** ** Command resolution *)

Module Resolve.

(** [PurePosixPath(cmd).name]: the last component of the path that is
    neither empty nor ["."], and [""] when there is none.  (The host is
    taken to be POSIX, where the only separator is ["/"].) *)
Definition is_component (x : string) : bool :=
  negb (String.eqb x "") && negb (String.eqb x ".").

Definition posix_name (cmd : string) : string :=
  List.last (List.filter is_component (split_on "/" cmd)) "".

(** The error of [cmd, *args = command] on an empty list. *)
Definition unpack_error : exn :=
  ValueError "not enough values to unpack (expected at least 1, got 0)".

Definition resolution_failed (cmd : string) : exn :=
  ClickException
    ("Failed to resolve command path, '" +:+ cmd +:+ "' wasn't found").

(** The blanks of [shlex]: space, tab, line feed, carriage return. *)
Definition is_blank (c : ascii) : bool :=
  let n := nat_of_ascii c in
  ((n =? 32) || (n =? 9) || (n =? 10) || (n =? 13))%nat.

(** Words separated by blanks: what [shlex.split] returns on a text with no
    quote, backslash or comment character. *)
Fixpoint split_words (s : string) : list string :=
  match s with
  | EmptyString => []
  | String c s' =>
      if is_blank c then split_words s'
      else match s' with
           | String d _ =>
               if is_blank d then String c "" :: split_words s'
               else match split_words s' with
                    | w :: ws => String c w :: ws
                    | [] => [String c ""]
                    end
           | EmptyString => [String c ""]
           end
  end.

Section Resolver.

(** [shutil.which]: the first match on the search path, if any. *)
Variable which : string -> option string.

(** [split_command_string]: [shlex.split] or [mslex.split], by platform;
    either may reject its input with an exception. *)
Variable split_command_string : string -> result (list string).

Definition resolve_command_path (command : list string)
  : result (list string) :=
  match command with
  | [] => Raise unpack_error
  | cmd :: args =>
      if negb (String.eqb (posix_name cmd) cmd) then Ok command
      else
        match which cmd with
        | Some (String _ _ as resolved_cmd) => Ok (resolved_cmd :: args)
        | Some EmptyString | None => Raise (resolution_failed cmd)
        end
  end.

Definition split_and_resolve_command_strings (commands : list string)
  : result (list (list string)) :=
  comprehension
    (fun raw_command =>
       tokens ← split_command_string raw_command;
       resolve_command_path tokens)
    commands.

End Resolver.

(** A search path on which nothing is found. *)
Definition which_nothing (cmd : string) : option string := None.

(** A search path holding [/usr/bin/true] and [/bin/echo] only. *)
Definition which_coreutils (cmd : string) : option string :=
  if String.eqb cmd "true" then Some "/usr/bin/true"
  else if String.eqb cmd "echo" then Some "/bin/echo"
  else None.

Definition shlex_plain (s : string) : result (list string) :=
  Ok (split_words s).

End Resolve.

(** ** Discovery of a working [pipx] *)

Module Pipx.

(** What [proc.run] returns; only the exit code is consulted here. *)
Record RunResult : Type := { exit_code : Z; output : string }.

Section Discovery.

(** [proc.run]: runs a command line; it may raise. *)
Variable run : list string -> result RunResult.

(** [shutil.which] *)
Variable which : string -> option string.

(** The value of [get_base_python_path()], fixed by the running
    interpreter. *)
Variable get_base_python_path : option string.

Definition get_python_paths : list string :=
  flat_map
    (fun python_name =>
       match which python_name with
       | Some (String _ _ as python_path) => [python_path]
       | Some EmptyString | None => []
       end)
    ["python3"; "python"]
  ++ match get_base_python_path with
     | Some python_base_path => [python_base_path]
     | None => []
     end.

Definition get_candidate_pipx_commands : list (list string) :=
  ["pipx"] :: map (fun python_path => [python_path; "-m"; "pipx"])
                  get_python_paths.

(** The command line probed for a candidate. *)
Definition probe (pipx_command : list string) : list string :=
  pipx_command ++ ["--version"].

(** The loop of [find_valid_pipx_command] over the candidates left: the
    command lines run, in order, and the outcome. *)
Fixpoint probe_candidates (error_message : string)
    (candidates : list (list string))
  : list (list string) * result (list string) :=
  match candidates with
  | [] => ([], Raise (ClickException error_message))
  | pipx_command :: rest =>
      match run (probe pipx_command) with
      | Raise e =>
          if is_OSError e then
            let (ran, outcome) := probe_candidates error_message rest in
            (probe pipx_command :: ran, outcome)
          else ([probe pipx_command], Raise e)
      | Ok pipx_version_result =>
          if (exit_code pipx_version_result =? 0)%Z then
            ([probe pipx_command], Ok pipx_command)
          else
            let (ran, outcome) := probe_candidates error_message rest in
            (probe pipx_command :: ran, outcome)
      end
  end.

Definition find_valid_pipx_command (error_message : string)
  : list (list string) * result (list string) :=
  probe_candidates error_message get_candidate_pipx_commands.

(** *** The specification's reading *)



End Discovery.




End Pipx.

(** ** Environment files *)

Module EnvFile.

(** A path is its sequence of components; the file system maps a path to
    what is there.  A path outside the map does not exist.
    [File content]: a regular file, with what opening and reading it as
    text gives, its content or the error raised ([PermissionError],
    [UnicodeDecodeError], ...).
    [Unreachable e]: the path cannot be examined: [stat] fails with the
    [OSError] [e] (permission denied on a directory above it, a file name
    too long, ...), which is none of the errors that [Path.is_file] and
    [Path.exists] take for "not there". *)
Inductive node : Type :=
| File (content : result string)
| Directory
| Unreachable (e : exn).

Section Load.

Variable fs : gmap (list string) node.

(** The parser of [python-dotenv]: variable names to values, [None] for a
    name given without a value. *)
Variable parse_dotenv : string -> gmap string (option string).

(** [Path.is_file] *)
Definition is_file (path : list string) : result bool :=
  match fs !! path with
  | Some (File _) => Ok true
  | Some Directory | None => Ok false
  | Some (Unreachable e) => Raise e
  end.

(** [Path.exists] *)
Definition path_exists (path : list string) : result bool :=
  match fs !! path with
  | Some (File _) | Some Directory => Ok true
  | None => Ok false
  | Some (Unreachable e) => Raise e
  end.

(** [path / name] *)
Definition joinpath (path : list string) (name : string) : list string :=
  path ++ [name].

(** [dotenv.dotenv_values(env_path, verbose=True)]: the parsed content of
    a file, and nothing for a path that [os.path.isfile] does not take for
    a file. *)
Definition dotenv_values (env_path : list string)
  : result (gmap string (option string)) :=
  match fs !! env_path with
  | Some (File (Ok content)) => Ok (parse_dotenv content)
  | Some (File (Raise e)) => Raise e
  | Some Directory | Some (Unreachable _) | None => Ok ∅
  end.

Definition load_env_file (path : list string)
  : result (gmap string (option string)) :=
  is_file path ≫= fun path_is_file : bool =>
  let env_path := if path_is_file then path else joinpath path ".env" in
  path_exists env_path ≫= fun env_path_exists : bool =>
  if env_path_exists then dotenv_values env_path else Ok ∅.

End Load.

(** A parser for examples: it knows the one-line file [KEY=value]. *)
Definition parse_one_line (content : string) : gmap string (option string) :=
  if String.eqb content "KEY=value" then {[ "KEY" := Some "value" ]} else ∅.


(** A directory that may be listed but not searched: what is in it cannot
    be examined. *)
Definition locked_fs : gmap (list string) node :=
  {[ ["locked"] := Directory;
     ["locked"; ".env"]
       := Unreachable (OSError "[Errno 13] Permission denied: 'locked/.env'") ]}.

End EnvFile.

(** ** The spinner and its runner *)

Module Animation.

Definition CR : string := String "013" "".
Definition ESC : string := String "027" "".

Definition CLEAR_LINE : string := ESC +:+ "[K".

(** The frames are kept as their UTF-8 encodings; nothing inspects them. *)
Definition SPINNER_FRAMES : list string :=
  ["⠋"; "⠙"; "⠹"; "⠸"; "⠼"; "⠴"; "⠦"; "⠧"; "⠇"; "⠏"].

(** The [spinner] dictionary of [animate]: interval in milliseconds. *)
Definition spinner_interval : Z := 100.
Definition spinner_frames : list string := SPINNER_FRAMES.

(** [codecs.decode(frame, "utf-8")]: a frame is a [str], which the codec
    rejects. *)
Definition codecs_decode (frame : string) : result string :=
  Raise (TypeError "decoding with 'utf-8' codec failed").

(** The [try] around the decoding: any [Exception] leaves the frame as it
    is. *)
Definition frame_text (frame : string) : string :=
  match codecs_decode frame with
  | Ok text => text
  | Raise _ => frame
  end.

(** The argument of [time.sleep], in seconds: [0.001 * interval]. *)
Definition sleep_seconds : Q := (1 # 1000) * inject_Z spinner_interval.

(** What a Python call yields. *)
Inductive value : Type :=
| PyNone
| PyInt (n : Z)
| PyStr (s : string).

Inductive outcome : Type :=
| Returned (v : value)
| Raised (e : exn).

(** What the three activities do that the others can see, in the order in
    which it happens. *)
Inductive event : Type :=
| Checked (flag : bool)      (* spinner: [stop_event.is_set()] gave [flag] *)
| Wrote (text : string)      (* spinner: [sys.stdout.write(text)] *)
| Flushed                    (* spinner: [sys.stdout.flush()] *)
| Slept (seconds : Q)        (* spinner: [time.sleep(seconds)] *)
| Completed (o : outcome)    (* operation: the call ended *)
| StopSet                    (* runner: [stop_event.set()] *)
| Joined                     (* runner: [animation_future.result()] came back *)
| Finished (o : outcome).    (* runner: returned to, or raised in, its caller *)

(** Where [animate] stands. *)
Inductive spinner_pc : Type :=
| ANotStarted
| AWhile                                   (* the test of the [while] *)
| AFor (rest : list string)                (* head of the [for]; frames left *)
| AWriteFrame (frame : string) (rest : list string)
| AWriteClear (rest : list string)
| AFlush (rest : list string)
| ASleep (rest : list string)
| AFinal                                   (* the write after the loop *)
| AReturned
| ADied (e : exn).                         (* a write or flush raised [e] *)

(** Where the wrapped operation stands. *)
Inductive operation_pc : Type :=
| ONotStarted
| ORunning
| ODone (o : outcome).

(** Where [run_with_animation] stands. *)
Inductive runner_pc : Type :=
| RSubmitAnimate                 (* [executor.submit(animate, ...)] *)
| RSubmitFunction                (* [executor.submit(target_function, ...)] *)
| RAwaitFunction                 (* [function_future.result()] *)
| RExceptSet (e : exn)           (* [except Exception as e]: [stop_event.set()] *)
| RExceptJoin (e : exn)          (* [animation_future.result()] *)
| RExceptRaise (e : exn)         (* [raise e] *)
| RElseSet (v : value)           (* [else]: [stop_event.set()] *)
| RElseJoin (v : value)          (* [animation_future.result()] *)
| RElseReturn (v : value)        (* [return result] *)
| RShutdown (o : outcome)        (* leaving [with]: [shutdown(wait=True)] *)
| RDone (o : outcome).

Record state : Type := {
  stop : bool;                   (* the flag of [stop_event] *)
  spinner : spinner_pc;
  operation : operation_pc;
  runner : runner_pc;
  log : list event               (* newest first *)
}.

Inductive thread : Type := Runner | Spinner | Operation.

(** [sys.stdout] as [animate] uses it: what the stream answers to a write
    and to a flush, given what has happened so far (oldest first); [None]
    when it takes it, the error it raises otherwise (a [UnicodeEncodeError]
    for a glyph its encoding lacks, a [BrokenPipeError], ...). *)
Record stream : Type := {
  stream_write : list event -> string -> option exn;
  stream_flush : list event -> option exn
}.

(** A terminal that takes every write and every flush. *)
Definition terminal : stream :=
  {| stream_write := fun _ _ => None; stream_flush := fun _ => None |}.


Definition initial : state :=
  {| stop := false; spinner := ANotStarted; operation := ONotStarted;
     runner := RSubmitAnimate; log := [] |}.

(** What happened, oldest first. *)
Definition events (s : state) : list event := rev (log s).

Section Run.

Variable stdout : stream.

(** What the call of [target_function] on its arguments does in the end;
    [None] when it never ends. *)
Variable target_function : option outcome.

Variable animation_text : string.

(** One step of [animate(animation_text, stop_event)].  An error of the
    stream is caught by nothing in [animate]: it ends the activity, and its
    future keeps the error. *)
Definition spinner_step (s : state) : option state :=
  let continue_at pc evs :=
    Some {| stop := stop s; spinner := pc; operation := operation s;
            runner := runner s; log := evs ++ log s |} in
  let write_then text pc :=
    match stream_write stdout (events s) text with
    | None => continue_at pc [Wrote text]
    | Some e => continue_at (ADied e) []
    end in
  let flush_then pc :=
    match stream_flush stdout (events s) with
    | None => continue_at pc [Flushed]
    | Some e => continue_at (ADied e) []
    end in
  match spinner s with
  | ANotStarted | AReturned | ADied _ => None
  | AWhile =>
      continue_at (if stop s then AFinal else AFor spinner_frames)
                  [Checked (stop s)]
  | AFor [] => continue_at AWhile []
  | AFor (frame :: rest) =>
      continue_at (if stop s then AWhile else AWriteFrame frame rest)
                  [Checked (stop s)]
  | AWriteFrame frame rest =>
      write_then (CR +:+ frame_text frame +:+ " " +:+ animation_text)
                 (AWriteClear rest)
  | AWriteClear rest => write_then CLEAR_LINE (AFlush rest)
  | AFlush rest => flush_then (ASleep rest)
  | ASleep rest => continue_at (AFor rest) [Slept sleep_seconds]
  | AFinal => write_then (CR +:+ " ") AReturned
  end.

(** The worker of the spinner has ended, with a return or an error. *)
Definition spinner_ended (a : spinner_pc) : bool :=
  match a with
  | AReturned | ADied _ => true
  | _ => false
  end.

(** One step of the wrapped operation: it ends when it ever does. *)
Definition operation_step (s : state) : option state :=
  match operation s, target_function with
  | ORunning, Some o =>
      Some {| stop := stop s; spinner := spinner s; operation := ODone o;
              runner := runner s; log := Completed o :: log s |}
  | _, _ => None
  end.

(** One step of [run_with_animation]; [None] while it is blocked.
    [animation_future.result()] waits for the spinner and raises what the
    spinner raised: from either branch of the [try] statement that error,
    not the outcome of the operation, then leaves the [with] block. *)
Definition runner_step (s : state) : option state :=
  let goto pc :=
    Some {| stop := stop s; spinner := spinner s; operation := operation s;
            runner := pc; log := log s |} in
  let set_then pc :=
    Some {| stop := true; spinner := spinner s; operation := operation s;
            runner := pc; log := StopSet :: log s |} in
  let join_then pc :=
    match spinner s with
    | AReturned =>
        Some {| stop := stop s; spinner := spinner s;
                operation := operation s; runner := pc;
                log := Joined :: log s |}
    | ADied e' => goto (RShutdown (Raised e'))
    | _ => None
    end in
  match runner s with
  | RSubmitAnimate =>
      Some {| stop := stop s; spinner := AWhile; operation := operation s;
              runner := RSubmitFunction; log := log s |}
  | RSubmitFunction =>
      Some {| stop := stop s; spinner := spinner s; operation := ORunning;
              runner := RAwaitFunction; log := log s |}
  | RAwaitFunction =>
      match operation s with
      | ODone (Returned v) => goto (RElseSet v)
      | ODone (Raised e) =>
          if is_Exception e then goto (RExceptSet e)
          else goto (RShutdown (Raised e))
      | ONotStarted | ORunning => None
      end
  | RExceptSet e => set_then (RExceptJoin e)
  | RExceptJoin e => join_then (RExceptRaise e)
  | RExceptRaise e => goto (RShutdown (Raised e))
  | RElseSet v => set_then (RElseJoin v)
  | RElseJoin v => join_then (RElseReturn v)
  | RElseReturn v => goto (RShutdown (Returned v))
  | RShutdown o =>
      match spinner_ended (spinner s), operation s with
      | true, ODone _ =>
          Some {| stop := stop s; spinner := spinner s;
                  operation := operation s; runner := RDone o;
                  log := Finished o :: log s |}
      | _, _ => None
      end
  | RDone _ => None
  end.

Definition step_on (t : thread) (s : state) : option state :=
  match t with
  | Runner => runner_step s
  | Spinner => spinner_step s
  | Operation => operation_step s
  end.

(** A schedule names the activity that moves next; an activity that cannot
    move lets its turn pass. *)
Definition turn_on (s : state) (t : thread) : state :=
  match step_on t s with
  | Some s' => s'
  | None => s
  end.

Definition run_on (schedule : list thread) (s : state) : state :=
  fold_left turn_on schedule s.

Definition run_with_animation_on (schedule : list thread) : state :=
  run_on schedule initial.

End Run.

(** The same with [sys.stdout] a terminal that takes everything. *)
Definition step : option outcome -> string -> thread -> state -> option state :=
  step_on terminal.

Definition turn : option outcome -> string -> state -> thread -> state :=
  turn_on terminal.

Definition run : option outcome -> string -> list thread -> state -> state :=
  run_on terminal.

Definition run_with_animation
    : option outcome -> string -> list thread -> state :=
  run_with_animation_on terminal.

(** *** Bookkeeping for the proofs *)

(** The outcomes the [try] statement has a branch for. *)
Definition handled (o : outcome) : bool :=
  match o with
  | Returned _ => true
  | Raised e => is_Exception e
  end.

(** The flag as the runner's position determines it. *)
Definition flag_after (r : runner_pc) : bool :=
  match r with
  | RExceptJoin _ | RExceptRaise _ | RElseJoin _ | RElseReturn _
  | RDone _ => true
  | RShutdown o => handled o
  | RSubmitAnimate | RSubmitFunction | RAwaitFunction
  | RExceptSet _ | RElseSet _ => false
  end.

(** The runner has waited for the spinner. *)
Definition joined (r : runner_pc) : bool :=
  match r with
  | RExceptRaise _ | RElseReturn _ | RDone _ => true
  | RShutdown o => handled o
  | _ => false
  end.

(** The outcome the runner holds once it has one. *)
Definition outcome_at (r : runner_pc) : option outcome :=
  match r with
  | RExceptSet e | RExceptJoin e | RExceptRaise e => Some (Raised e)
  | RElseSet v | RElseJoin v | RElseReturn v => Some (Returned v)
  | RShutdown o | RDone o => Some o
  | RSubmitAnimate | RSubmitFunction | RAwaitFunction => None
  end.



Definition in_handler (r : runner_pc) : Prop :=
  match r with
  | RExceptSet e | RExceptJoin e | RExceptRaise e => is_Exception e = true
  | RDone o => handled o = true
  | _ => True
  end.

Definition is_StopSet (ev : event) : bool :=
  match ev with
  | StopSet => true
  | _ => false
  end.

Definition is_Slept (ev : event) : bool :=
  match ev with
  | Slept _ => true
  | _ => false
  end.

Definition is_Flushed (ev : event) : bool :=
  match ev with
  | Flushed => true
  | _ => false
  end.

(** How often [stop_event.set()] was called. *)
Definition times_set (l : list event) : nat :=
  List.length (List.filter is_StopSet l).

(** The events of a log (newest first) that are newer than the setting of
    the flag; all of them when the flag was never set. *)
Fixpoint since_set (l : list event) : list event :=
  match l with
  | [] => []
  | StopSet :: _ => []
  | ev :: l' => ev :: since_set l'
  end.

(** The number of sleeps in each stretch of a log between two consecutive
    checks of the flag, newest stretch first. *)
Fixpoint sleeps_between_checks (l : list event) : list nat :=
  match l with
  | [] => [0%nat]
  | Checked _ :: l' => 0%nat :: sleeps_between_checks l'
  | Slept _ :: l' =>
      match sleeps_between_checks l' with
      | n :: ns => S n :: ns
      | [] => [1%nat]
      end
  | _ :: l' => sleeps_between_checks l'
  end.

(** The spinner is between the check that let a frame through and the end
    of that frame's sleep. *)
Definition in_frame (a : spinner_pc) : bool :=
  match a with
  | AWriteFrame _ _ | AWriteClear _ | AFlush _ | ASleep _ => true
  | _ => false
  end.

(** The spinner has a flush of the current frame ahead of it. *)
Definition before_flush (a : spinner_pc) : bool :=
  match a with
  | AWriteFrame _ _ | AWriteClear _ | AFlush _ => true
  | _ => false
  end.



Section Invariants.

Variable target_function : option outcome.

(** The operation's position agrees with what the runner knows of it. *)
Definition operation_known (s : state) : Prop :=
  match outcome_at (runner s) with
  | Some o => operation s = ODone o /\ target_function = Some o
  | None =>
      match runner s with
      | RAwaitFunction =>
          operation s = ORunning
          \/ exists o, operation s = ODone o /\ target_function = Some o
      | _ => operation s = ONotStarted
      end
  end.

(** How the positions of the three activities and the flag hang together
    on a terminal that takes everything. *)
Definition control_invariant (s : state) : Prop :=
  stop s = flag_after (runner s)
  /\ (spinner s = ANotStarted <-> runner s = RSubmitAnimate)
  /\ (spinner s = AFinal \/ spinner s = AReturned -> stop s = true)
  /\ (joined (runner s) = true -> spinner s = AReturned)
  /\ in_handler (runner s)
  /\ operation_known s
  /\ times_set (log s) = (if stop s then 1 else 0)%nat
  /\ (forall e, spinner s <> ADied e).

(** The newest events once the spinner has returned. *)
Definition tail_invariant (s : state) : Prop :=
  match runner s with
  | RExceptJoin _ | RElseJoin _ =>
      spinner s = AReturned -> exists l, log s = Wrote (CR +:+ " ") :: l
  | RExceptRaise _ | RElseReturn _ =>
      exists l, log s = Joined :: Wrote (CR +:+ " ") :: l
  | RShutdown o =>
      handled o = true -> exists l, log s = Joined :: Wrote (CR +:+ " ") :: l
  | RDone o =>
      exists l, log s = Finished o :: Joined :: Wrote (CR +:+ " ") :: l
  | RSubmitAnimate | RSubmitFunction | RAwaitFunction
  | RExceptSet _ | RElseSet _ => True
  end.

(** The spinner sleeps at most once between two checks, always for
    [sleep_seconds], and not before the first flush of a frame. *)
Definition pace_invariant (s : state) : Prop :=
  Forall (fun n => n <= 1)%nat (sleeps_between_checks (log s))
  /\ (in_frame (spinner s) = true ->
      hd 0%nat (sleeps_between_checks (log s)) = 0%nat)
  /\ Forall (fun ev => forall d, ev = Slept d -> d = sleep_seconds) (log s).

(** Once the flag is set, at most the frame under way is still flushed and
    slept on. *)
Definition after_set_invariant (s : state) : Prop :=
  stop s = true ->
  (List.length (List.filter is_Slept (since_set (log s)))
   + (if in_frame (spinner s) then 1 else 0) <= 1)%nat
  /\ (List.length (List.filter is_Flushed (since_set (log s)))
      + (if before_flush (spinner s) then 1 else 0) <= 1)%nat.

(** Everything the proofs keep track of. *)
Definition invariant (s : state) : Prop :=
  control_invariant s /\ tail_invariant s
  /\ pace_invariant s /\ after_set_invariant s.


End Invariants.

(** [n] rounds in which every activity gets one turn. *)
Fixpoint rounds (n : nat) : list thread :=
  match n with
  | O => []
  | S n' => [Operation; Runner; Spinner] ++ rounds n'
  end.

End Animation.

(** ** The interpreter behind this process *)

Module Interpreter.

(** [s.endswith(suffix)] *)
Definition ends_with (s suffix : string) : bool :=
  let n := String.length s in
  let k := String.length suffix in
  (k <=? n)%nat && String.eqb (substring (n - k) k s) suffix.

(** [s.rfind(c)], [None] for [-1]. *)
Fixpoint rfind (c : ascii) (s : string) : option nat :=
  match s with
  | EmptyString => None
  | String d s' =>
      match rfind c s' with
      | Some i => Some (S i)
      | None => if Ascii.eqb d c then Some 0%nat else None
      end
  end.

(** [PurePath.suffix], of the final component [name]: what follows the last
    dot, the dot included, unless that dot comes first or last. *)
Definition name_suffix (name : string) : string :=
  match rfind "." name with
  | Some i =>
      if ((0 <? i) && (i <? String.length name - 1))%nat
      then substring i (String.length name - i) name
      else ""
  | None => ""
  end.

(** [PurePath.with_suffix], on the final component [name].  (Its checks of
    the arguments pass here: the names are not empty and the suffix is
    [.exe].) *)
Definition with_suffix (name suffix : string) : string :=
  match name_suffix name with
  | EmptyString => name +:+ suffix
  | old_suffix =>
      substring 0 (String.length name - String.length old_suffix) name
      +:+ suffix
  end.

(** [f"{n}"] for a natural number. *)
Definition decimal (n : nat) : string :=
  DecimalString.NilEmpty.string_of_uint (Nat.to_uint n).

Definition RuntimeError : exn := UserError true "RuntimeError".

(** What [except (OSError, RuntimeError)] catches. *)
Definition is_OSError_or_RuntimeError (e : exn) : bool :=
  match e with
  | OSError _ => true
  | UserError true name => String.eqb name "RuntimeError"
  | _ => false
  end.

(** What the function observes of the interpreter and of the file
    system. *)
Record host : Type := {
  sys_executable : option string;
  sys_prefix : string;
  sys_base_prefix : string;
  sys_home : option string;                 (* [getattr(sys, "_home", None)] *)
  platform_system : string;
  version_minor : nat;
  is_symlink : string -> result bool;       (* [Path(p).is_symlink()] *)
  resolve : string -> result string;        (* [str(Path(p).resolve())] *)
  is_file_in : string -> string -> result bool;
                                            (* [(Path(home) / name).is_file()] *)
  path_in : string -> string -> string      (* [str(Path(home) / name)] *)
}.

(** The names tried in the home of the base interpreter. *)
Definition candidate_names (h : host) : list string :=
  ["python"; "python3"; "python3." +:+ decimal (version_minor h)].

(** The [for] loop over the names: the first candidate that is a file.
    [is_file] stands outside the [try] statement: what it raises leaves
    the function. *)
Fixpoint first_candidate (h : host) (base_home : string) (is_windows : bool)
    (names : list string) : result (option string) :=
  match names with
  | [] => Ok None
  | name :: names' =>
      let candidate := if is_windows then with_suffix name ".exe" else name in
      match is_file_in h base_home candidate with
      | Ok true => Ok (Some (path_in h base_home candidate))
      | Ok false => first_candidate h base_home is_windows names'
      | Raise e => Raise e
      end
  end.

(** From [if base_home := ...] to the end of the function. *)
Definition from_home (h : host) (this_python : string) : result string :=
  match sys_home h with
  | Some (String _ _ as base_home) =>
      let is_windows := String.eqb (platform_system h) "Windows" in
      match first_candidate h base_home is_windows (candidate_names h) with
      | Ok (Some candidate_path) => Ok candidate_path
      | Ok None => Ok this_python
      | Raise e => Raise e
      end
  | Some EmptyString | None => Ok this_python
  end.

Definition get_base_python_path (h : host) : result (option string) :=
  match sys_executable h with
  | None | Some EmptyString => Ok None
  | Some this_python =>
      if ends_with this_python "algokit" then Ok None
      else if String.eqb (sys_prefix h) (sys_base_prefix h)
      then Ok (Some this_python)
      else
        match is_symlink h this_python with
        | Ok true =>
            match resolve h this_python with
            | Ok resolved => Ok (Some resolved)
            | Raise e =>
                if is_OSError_or_RuntimeError e
                then Some <$> from_home h this_python
                else Raise e
            end
        | Ok false => Some <$> from_home h this_python
        | Raise e =>
            if is_OSError_or_RuntimeError e
            then Some <$> from_home h this_python
            else Raise e
        end
  end.

(** A virtual environment on Windows whose base installation holds
    [python3.11.exe] only. *)
Definition windows_venv : host :=
  {| sys_executable := Some "C:\venv\Scripts\python.exe";
     sys_prefix := "C:\venv";
     sys_base_prefix := "C:\Python311";
     sys_home := Some "C:\Python311";
     platform_system := "Windows";
     version_minor := 11;
     is_symlink := fun _ => Ok false;
     resolve := fun p => Ok p;
     is_file_in := fun home name =>
       Ok (String.eqb home "C:\Python311"
           && String.eqb name "python3.11.exe");
     path_in := fun home name => home +:+ "\" +:+ name |}.



End Interpreter.

(** ** The spinner and its runner: what is written, and when *)

Module AnimationTrace.
Import Animation.

(** The texts written to the terminal, in order. *)
Definition writes (evs : list event) : list string :=
  flat_map (fun ev => match ev with
                      | Wrote text => [text]
                      | _ => []
                      end) evs.




(** In a log (newest first), every setting of the flag has the end of the
    operation behind it. *)
Fixpoint set_after_completion (l : list event) : Prop :=
  match l with
  | [] => True
  | StopSet :: older =>
      (exists o, In (Completed o) older) /\ set_after_completion older
  | _ :: older => set_after_completion older
  end.

Section Invariants.

Variable target_function : option outcome.
Variable animation_text : string.

(** The log tells of the operation what the operation did. *)
Definition completion_invariant (s : state) : Prop :=
  (forall o, operation s = ODone o -> In (Completed o) (log s))
  /\ (forall o, In (Completed o) (log s) -> target_function = Some o)
  /\ set_after_completion (log s).


End Invariants.

End AnimationTrace.

(** ** More on probes and batches *)

Module PipxProbe.
Import Pipx.


(** A host on which the probe of [python3] dies of a timeout. *)
Definition run_timeout (command : list string) : result RunResult :=
  match command with
  | ["pipx"; "--version"] => Raise (OSError "No such file or directory")
  | ["/usr/bin/python3"; "-m"; "pipx"; "--version"] =>
      Raise (UserError true "TimeoutExpired")
  | _ => Ok {| exit_code := 0; output := "1.4.3" |}
  end.

End PipxProbe.

(** ** The candidates as generators *)

Module PipxGenerator.
Import Pipx.

(** A generator as its consumer meets it: it yields an item and goes on,
    or is exhausted, or raises while it is advanced. *)
Inductive generator (A : Type) : Type :=
| Exhausted
| Yield (item : A) (rest : generator A)
| Raises (e : exn).
Arguments Exhausted {A}.
Arguments Yield {A} item rest.
Arguments Raises {A} e.

Fixpoint generator_map {A B : Type} (f : A -> B) (g : generator A)
  : generator B :=
  match g with
  | Exhausted => Exhausted
  | Yield item rest => Yield (f item) (generator_map f rest)
  | Raises e => Raises e
  end.



Section Discovery.

(** [proc.run]: runs a command line; it may raise. *)
Variable run : list string -> result RunResult.

(** [shutil.which] *)
Variable which : string -> option string.

(** What the call [get_base_python_path()] does: it is made when the
    generator is advanced past the interpreters of the search path, and
    not before. *)
Variable get_base_python_path : result (option string).

(** [if python_path := which(python_name): yield python_path] *)
Definition yield_found (python_name : string) (rest : generator string)
  : generator string :=
  match which python_name with
  | Some (String _ _ as python_path) => Yield python_path rest
  | Some EmptyString | None => rest
  end.

Definition get_python_paths : generator string :=
  yield_found "python3"
    (yield_found "python"
       match get_base_python_path with
       | Ok (Some python_base_path) => Yield python_base_path Exhausted
       | Ok None => Exhausted
       | Raise e => Raises e
       end).

Definition get_candidate_pipx_commands : generator (list string) :=
  Yield ["pipx"]
    (generator_map (fun python_path => [python_path; "-m"; "pipx"])
       get_python_paths).

(** The loop of [find_valid_pipx_command] over the candidates left: the
    command lines run, in order, and the outcome.  The generator is
    advanced outside the [try] statement: what it raises leaves the
    function. *)
Fixpoint probe_candidates (error_message : string)
    (candidates : generator (list string))
  : list (list string) * result (list string) :=
  match candidates with
  | Exhausted => ([], Raise (ClickException error_message))
  | Raises e => ([], Raise e)
  | Yield pipx_command rest =>
      match run (probe pipx_command) with
      | Raise e =>
          if is_OSError e then
            let (ran, outcome) := probe_candidates error_message rest in
            (probe pipx_command :: ran, outcome)
          else ([probe pipx_command], Raise e)
      | Ok pipx_version_result =>
          if (exit_code pipx_version_result =? 0)%Z then
            ([probe pipx_command], Ok pipx_command)
          else
            let (ran, outcome) := probe_candidates error_message rest in
            (probe pipx_command :: ran, outcome)
      end
  end.

Definition find_valid_pipx_command (error_message : string)
  : list (list string) * result (list string) :=
  probe_candidates error_message get_candidate_pipx_commands.

End Discovery.

End PipxGenerator.

Module ResolveBatch.
Import Resolve.

(** One command string of [split_and_resolve_command_strings]: split it,
    then resolve it. *)
Definition split_and_resolve_one
    (which : string -> option string)
    (split_command_string : string -> result (list string))
    (raw_command : string) : result (list string) :=
  tokens ← split_command_string raw_command;
  resolve_command_path which tokens.

(** A splitter that rejects an open quotation, as [shlex] does. *)
Definition shlex_quotes (s : string) : result (list string) :=
  if contains_char "'" s then Raise (ValueError "No closing quotation")
  else Ok (split_words s).

End ResolveBatch.

(** ** The search path *)

Module SearchPath.

Fixpoint ends_with_separator (s : string) : bool :=
  match s with
  | EmptyString => false
  | String c EmptyString => Ascii.eqb c "/"
  | String _ s' => ends_with_separator s'
  end.

(** [os.path.join(dir, name)] on POSIX, for a [name] that does not start
    with the separator. *)
Definition path_join (dir name : string) : string :=
  if String.eqb dir "" then name
  else if ends_with_separator dir then dir +:+ name
       else dir +:+ "/" +:+ name.


Section Which.

(** The value of the environment variable [PATH], or the default search
    path of the system when the variable is not set. *)
Variable PATH : string.

(** [_access_check(name, os.F_OK | os.X_OK)]: the file exists, may be
    executed and is no directory. *)
Variable access_check : string -> bool.

(** The directories to look into: none for an empty [PATH]. *)
Definition search_dirs : list string :=
  if String.eqb PATH "" then [] else split_on ":" PATH.

Fixpoint first_match (dirs : list string) (cmd : string) : option string :=
  match dirs with
  | [] => None
  | dir :: rest =>
      if access_check (path_join dir cmd) then Some (path_join dir cmd)
      else first_match rest cmd
  end.

(** [shutil.which(cmd)] on POSIX for a [cmd] without directory part.  (A
    directory listed twice is looked into once; with a file system that
    answers the same both times this does not show.) *)
Definition which (cmd : string) : option string :=
  first_match search_dirs cmd.

End Which.


End SearchPath.

(** * Properties *)

(** ** Strings *)

Module StringFacts.

Lemma split_on_not_nil sep s : split_on sep s <> [].
Proof.
  destruct s as [|c s]; simpl; [discriminate|].
  destruct (Ascii.eqb c sep); [discriminate|].
  destruct (split_on sep s); discriminate.
Qed.

Lemma split_on_no_sep sep s :
  contains_char sep s = false -> split_on sep s = [s].
Proof.
  induction s as [|c s IH]; simpl; [reflexivity|].
  intros H. apply orb_false_iff in H as [Hc Hs].
  rewrite Hc, (IH Hs). reflexivity.
Qed.

Lemma split_on_before_sep sep x r :
  contains_char sep x = false ->
  split_on sep (x +:+ String sep r) = x :: split_on sep r.
Proof.
  induction x as [|c x IH]; simpl.
  - intros _. now rewrite Ascii.eqb_refl.
  - intros H. apply orb_false_iff in H as [Hc Hx].
    rewrite Hc, (IH Hx). reflexivity.
Qed.

Lemma digits_hold_no_dot x :
  Version.all_digits x = true -> contains_char "." x = false.
Proof.
  induction x as [|c x IH]; simpl; [reflexivity|].
  intros H. apply andb_true_iff in H as [Hc Hx]. rewrite (IH Hx).
  destruct (Ascii.eqb_spec c "."); [subst; discriminate | reflexivity].
Qed.

End StringFacts.

(** ** Version helpers *)

Module VersionFacts.
Import Version StringFacts.

Create HintDb lex.
#[local] Hint Constructors lex_lt : lex.

(** *** Numerals as [int] reads them *)
















(** *** The order of tuples *)

Lemma lex_lt_irrefl v : ~ lex_lt v v.
Proof. induction v; inversion 1; subst; [lia | auto]. Qed.








(** C6 fails as stated: a segment of 4301 digits is numeric, and the tuple
    of the first string is the greater one, but with the limit of 4300
    digits [int] raises for it. *)
Lemma is_minimum_version_digit_limit :
  dotted [ones 4301] = numeral_text (ones 4301)
  /\ all_digits (dotted [ones 4301]) = true
  /\ String.length (dotted [ones 4301]) = 4301%nat
  /\ dotted [Decimal.D1 Decimal.Nil] = "1"
  /\ lex_ge_same_arity (numbers [ones 4301]) (numbers [Decimal.D1 Decimal.Nil])
  /\ is_minimum_version 4300 repr_plain
       (dotted [ones 4301]) (dotted [Decimal.D1 Decimal.Nil])
     = Raise (ValueError
                ("Exceeds the limit (4300 digits) for integer string "
                 ++ "conversion: value has 4301 digits; use "
                 ++ "sys.set_int_max_str_digits() to increase the limit")).
Proof.
  split; [reflexivity|]. split; [vm_compute; reflexivity|].
  split; [vm_compute; reflexivity|]. split; [reflexivity|]. split.
  - right. exists [], (Z.of_uint (ones 4301)), 1%Z, [], [].
    split; [reflexivity|]. split; [reflexivity|].
    apply Z.ltb_lt. vm_compute. reflexivity.
  - vm_compute. reflexivity.
Qed.



(** C9 fails as stated: the segments are numeric and their numbers differ,
    but the first has 4301 digits, and with the limit of 4300 digits
    [is_minimum_version] raises. *)
Lemma is_minimum_version_digit_limit_arity :
  dotted [ones 4301; Decimal.D0 Decimal.Nil]
  = numeral_text (ones 4301) +:+ ".0"
  /\ all_digits (numeral_text (ones 4301)) = true
  /\ Decimal.nb_digits (ones 4301) = 4301%nat
  /\ dotted [Decimal.D1 Decimal.Nil] = "1"
  /\ List.length [ones 4301; Decimal.D0 Decimal.Nil]
     <> List.length [Decimal.D1 Decimal.Nil]
  /\ is_minimum_version 4300 repr_plain
       (dotted [ones 4301; Decimal.D0 Decimal.Nil])
       (dotted [Decimal.D1 Decimal.Nil])
     = Raise (ValueError
                ("Exceeds the limit (4300 digits) for integer string "
                 ++ "conversion: value has 4301 digits; use "
                 ++ "sys.set_int_max_str_digits() to increase the limit")).
Proof.
  split; [reflexivity|]. split; [vm_compute; reflexivity|].
  split; [vm_compute; reflexivity|]. split; [reflexivity|].
  split; [simpl; lia|]. vm_compute. reflexivity.
Qed.

End VersionFacts.

(** ** Version triple extraction *)

Module VersionTripleFacts.
Import Version VersionTriple.

Lemma append_assoc (a b c : string) : (a +:+ b) +:+ c = a +:+ b +:+ c.
Proof. induction a; simpl; congruence. Qed.

Lemma append_empty_r (a : string) : a +:+ "" = a.
Proof. induction a; simpl; congruence. Qed.

Lemma length_append (a b : string) :
  String.length (a +:+ b) = (String.length a + String.length b)%nat.
Proof. induction a; simpl; congruence. Qed.

Lemma substring_prefix (w post : string) :
  substring 0 (String.length w) (w +:+ post) = w.
Proof.
  induction w as [|c w IH]; simpl.
  - destruct post; reflexivity.
  - now rewrite IH.
Qed.

Lemma substring_occurrence (pre w post : string) :
  substring (String.length pre) (String.length w) (pre +:+ w +:+ post) = w.
Proof. induction pre; simpl; auto using substring_prefix. Qed.

Lemma match_here_plus a p c s :
  match_here (Plus a :: p) (String c s) =
  if atom_matches a c then
    match match_here (Plus a :: p) s with
    | Some n => Some (S n)
    | None => S <$> match_here p s
    end
  else None.
Proof. reflexivity. Qed.

Lemma match_here_plus_empty a p : match_here (Plus a :: p) "" = None.
Proof. reflexivity. Qed.

Lemma match_here_one a p c s :
  match_here (One a :: p) (String c s) =
  if atom_matches a c then S <$> match_here p s else None.
Proof. reflexivity. Qed.

Lemma greedy_end_cons it p post :
  p <> [] -> greedy_end p post -> greedy_end (it :: p) post.
Proof. destruct p; [congruence | auto]. Qed.

(** A successful match is a prefix the pattern denotes, and it is greedy at
    its end. *)
Lemma match_here_sound p :
  forall s n,
    match_here p s = Some n ->
    exists w post,
      s = w +:+ post /\ String.length w = n /\ matches p w /\ greedy_end p post.
Proof.
  induction p as [|[a|a] p IH]; intros s n.
  - intros [= <-]. exists "", s. repeat split. constructor.
  - destruct s as [|c s]; [discriminate|]. rewrite match_here_one.
    destruct (atom_matches a c) eqn:E; [|discriminate].
    destruct (match_here p s) as [k|] eqn:M; [|discriminate].
    intros [= <-]. destruct (IH _ _ M) as (w & post & -> & <- & Hm & Hg).
    exists (String c w), post. repeat split; [now constructor|].
    destruct p; [exact I | exact Hg].
  - revert n. induction s as [|c s IHs]; intros n; [discriminate|].
    rewrite match_here_plus.
    destruct (atom_matches a c) eqn:E; [|discriminate].
    destruct (match_here (Plus a :: p) s) as [k|] eqn:M.
    + intros [= <-]. destruct (IHs _ eq_refl) as (w & post & -> & <- & Hm & Hg).
      exists (String c w), post. repeat split; [|exact Hg].
      now apply matches_plus_more.
    + destruct (match_here p s) as [k|] eqn:M'; [|discriminate].
      intros [= <-]. destruct (IH _ _ M') as (w & post & -> & <- & Hm & Hg).
      exists (String c w), post. repeat split; [now constructor|].
      destruct p as [|it p]; [|exact Hg].
      (* the pattern ends here: nothing more of the class follows *)
      inversion Hm; subst. change ("" +:+ post) with post in M.
      destruct post as [|d post]; [reflexivity|]. simpl.
      rewrite match_here_plus in M.
      destruct (atom_matches a d); [|reflexivity].
      destruct (match_here [Plus a] post); discriminate.
Qed.

(** Whenever the pattern denotes a prefix of the text, the match succeeds. *)
Lemma match_here_complete p w :
  matches p w -> forall post, is_Some (match_here p (w +:+ post)).
Proof.
  induction 1 as [|a c p w E _ IH|a c p w E _ IH|a c p w E _ IH]; intros post.
  - simpl. eauto.
  - simpl String.append. rewrite match_here_one, E.
    destruct (IH post) as [k ->]. simpl. eauto.
  - simpl String.append. rewrite match_here_plus, E.
    destruct (match_here (Plus a :: p) (w +:+ post)); [eauto|].
    destruct (IH post) as [k ->]. simpl. eauto.
  - simpl String.append. rewrite match_here_plus, E.
    destruct (IH post) as [k ->]. eauto.
Qed.

Lemma search_sound p :
  forall s start len,
    search p s = Some (start, len) ->
    exists pre w post,
      s = pre +:+ w +:+ post
      /\ String.length pre = start /\ String.length w = len
      /\ matches p w /\ greedy_end p post
      /\ forall pre' w' post',
          s = pre' +:+ w' +:+ post' -> matches p w' ->
          (start <= String.length pre')%nat.
Proof.
  induction s as [|c s IH]; intros start len; simpl.
  - destruct (match_here p "") as [n|] eqn:M; [|discriminate].
    intros [= <- <-]. destruct (match_here_sound _ _ _ M) as (w & post & H).
    exists "", w, post. simpl. intuition lia.
  - destruct (match_here p (String c s)) as [n|] eqn:M.
    + intros [= <- <-]. destruct (match_here_sound _ _ _ M) as (w & post & H).
      exists "", w, post. simpl. intuition lia.
    + destruct (search p s) as [[i k]|] eqn:S; [|discriminate].
      simpl. intros [= <- <-].
      destruct (IH _ _ eq_refl) as (pre & w & post & -> & <- & <- & Hm & Hg & Hl).
      exists (String c pre), w, post. repeat split; auto.
      intros [|d pre'] w' post' Heq Hw'.
      * simpl in Heq. exfalso.
        destruct (match_here_complete _ _ Hw' post') as [k Hk].
        rewrite <- Heq in Hk. congruence.
      * simpl in Heq. injection Heq as -> Heq. simpl.
        apply le_n_S. eapply Hl; eauto.
Qed.

Lemma search_complete p :
  forall s, search p s = None ->
            forall pre w post, s = pre +:+ w +:+ post -> ~ matches p w.
Proof.
  induction s as [|c s IH]; simpl; intros Hs pre w post Heq Hw.
  - destruct (match_here p "") eqn:M; [discriminate|].
    destruct pre; [|discriminate]. simpl in Heq.
    destruct (match_here_complete _ _ Hw post) as [k Hk].
    rewrite <- Heq in Hk. congruence.
  - destruct (match_here p (String c s)) eqn:M; [discriminate|].
    destruct (search p s) eqn:S; [discriminate|].
    destruct pre as [|d pre]; simpl in Heq.
    + destruct (match_here_complete _ _ Hw post) as [k Hk].
      rewrite <- Heq in Hk. congruence.
    + injection Heq as -> Heq. eapply IH; eauto.
Qed.

Lemma numeric_segment_cons c x :
  numeric_segment (String c x) = (is_digit c && all_digits x)%bool.
Proof. reflexivity. Qed.

Lemma numeric_segment_all_digits x :
  numeric_segment x = true -> all_digits x = true.
Proof. destruct x; [discriminate | auto]. Qed.

Lemma matches_plus_digit p w :
  matches (Plus Digit :: p) w <->
  exists x r, numeric_segment x = true /\ w = x +:+ r /\ matches p r.
Proof.
  split.
  - remember (Plus Digit :: p) as q eqn:Hq. intros H.
    induction H as [|a c p' w E H _|a c p' w E H _|a c p' w E H IH];
      try discriminate; injection Hq as -> ->.
    + exists (String c ""), w. simpl in *. rewrite E. auto.
    + destruct (IH eq_refl) as (x & r & Hx & -> & Hr).
      exists (String c x), r. rewrite numeric_segment_cons.
      simpl in E. rewrite E, (numeric_segment_all_digits _ Hx). auto.
  - intros (x & r & Hx & -> & Hr).
    induction x as [|c x IH]; [discriminate|].
    rewrite numeric_segment_cons in Hx. apply andb_true_iff in Hx as [Hc Hx].
    destruct x as [|d x].
    + now apply matches_plus_stop.
    + apply matches_plus_more; [exact Hc|]. apply IH. exact Hx.
Qed.

Lemma matches_one_lit d p w :
  matches (One (Lit d) :: p) w <-> exists r, w = String d r /\ matches p r.
Proof.
  split.
  - inversion 1; subst. simpl in *.
    match goal with H : Ascii.eqb _ _ = true |- _ =>
      apply Ascii.eqb_eq in H; subst end.
    eauto.
  - intros (r & -> & Hr). constructor; [apply Ascii.eqb_refl | exact Hr].
Qed.

Lemma matches_empty w : matches [] w <-> w = "".
Proof. split; [now inversion 1 | intros ->; constructor]. Qed.

(** The pattern denotes exactly the strings of the shape X.Y.Z. *)
Lemma matches_version_pattern w : matches version_pattern w <-> is_triple w.
Proof.
  unfold version_pattern, is_triple.
  rewrite matches_plus_digit.
  setoid_rewrite matches_one_lit.
  setoid_rewrite matches_plus_digit.
  setoid_rewrite matches_one_lit.
  setoid_rewrite matches_plus_digit.
  setoid_rewrite matches_empty.
  split.
  - intros (x & ? & Hx & -> & ? & -> & y & ? & Hy & -> & ? & -> & z & ? & Hz & -> & ->).
    exists x, y, z. rewrite append_empty_r. auto.
  - intros (x & y & z & Hx & Hy & Hz & ->).
    exists x, ("." +:+ y +:+ "." +:+ z). repeat split; [exact Hx|].
    exists (y +:+ "." +:+ z). split; [reflexivity|].
    exists y, ("." +:+ z). repeat split; [exact Hy|].
    exists z. split; [reflexivity|].
    exists z, "". rewrite append_empty_r. auto.
Qed.

Lemma digit_run_split x x' c c' r r' :
  all_digits x = true -> all_digits x' = true ->
  is_digit c = false -> is_digit c' = false ->
  x +:+ String c r = x' +:+ String c' r' ->
  x = x' /\ r = r'.
Proof.
  revert x'. induction x as [|d x IH]; intros [|d' x'] Hx Hx' Hc Hc' Heq;
    simpl in *.
  - injection Heq as _ ->. auto.
  - injection Heq as -> _. apply andb_true_iff in Hx' as [? _]. congruence.
  - injection Heq as -> _. apply andb_true_iff in Hx as [? _]. congruence.
  - injection Heq as -> Heq.
    apply andb_true_iff in Hx as [_ Hx]. apply andb_true_iff in Hx' as [_ Hx'].
    destruct (IH _ Hx Hx' Hc Hc' Heq) as [-> ->]. auto.
Qed.

Lemma digit_run_longest z' :
  forall z post post',
    all_digits z' = true -> starts_with_digit post = false ->
    z +:+ post = z' +:+ post' ->
    (String.length z' <= String.length z)%nat.
Proof.
  induction z' as [|d z' IH]; intros z post post' Hz' Hpost Heq; simpl;
    [lia|].
  simpl in Hz'. apply andb_true_iff in Hz' as [Hd Hz'].
  destruct z as [|e z]; simpl in Heq.
  - subst post. simpl in Hpost. congruence.
  - injection Heq as -> Heq. simpl. apply le_n_S. eauto.
Qed.

Lemma dot_not_digit : is_digit "." = false.
Proof. reflexivity. Qed.

Lemma triple_longest m post m' post' :
  is_triple m -> starts_with_digit post = false ->
  m +:+ post = m' +:+ post' -> is_triple m' ->
  (String.length m' <= String.length m)%nat.
Proof.
  intros (x & y & z & Hx & Hy & Hz & ->) Hpost Heq
         (x' & y' & z' & Hx' & Hy' & Hz' & ->).
  apply numeric_segment_all_digits in Hx, Hy, Hz, Hx', Hy', Hz'.
  rewrite !append_assoc in Heq.
  change (x +:+ String "." (y +:+ String "." (z +:+ post))
          = x' +:+ String "." (y' +:+ String "." (z' +:+ post'))) in Heq.
  destruct (digit_run_split _ _ _ _ _ _ Hx Hx' dot_not_digit dot_not_digit Heq)
    as [-> Heq1].
  destruct (digit_run_split _ _ _ _ _ _ Hy Hy' dot_not_digit dot_not_digit Heq1)
    as [-> Heq2].
  pose proof (digit_run_longest _ _ _ _ Hz' Hpost Heq2).
  rewrite !length_append. simpl. lia.
Qed.

Lemma extract_version_triple_ok s m :
  extract_version_triple s = Ok m -> first_triple s m.
Proof.
  unfold extract_version_triple.
  destruct (search version_pattern s) as [[start len]|] eqn:S; [|discriminate].
  intros [= <-].
  destruct (search_sound _ _ _ _ S)
    as (pre & w & post & -> & <- & <- & Hm & Hg & Hl).
  rewrite substring_occurrence. apply matches_version_pattern in Hm.
  exists pre, post. split; [reflexivity|]. split; [exact Hm|]. split.
  - intros pre' m' post' Hocc Hm'. eapply Hl; [exact Hocc|].
    now apply matches_version_pattern.
  - intros m' post' Heq Hm'. eapply triple_longest; eauto.
    simpl in Hg. destruct post; [reflexivity | exact Hg].
Qed.

Lemma extract_version_triple_raise s e :
  extract_version_triple s = Raise e <->
  e = ValueError "Unable to parse version number"
  /\ forall pre m post, occurs_at s pre m post -> ~ is_triple m.
Proof.
  unfold extract_version_triple.
  destruct (search version_pattern s) as [[start len]|] eqn:S.
  - split; [discriminate|]. intros [_ Hno]. exfalso.
    destruct (search_sound _ _ _ _ S)
      as (pre & w & post & Hs & _ & _ & Hm & _).
    apply (Hno pre w post Hs). now apply matches_version_pattern.
  - split.
    + intros [= <-]. split; [reflexivity|].
      intros pre m post Hocc Hm.
      apply (search_complete _ _ S pre m post Hocc).
      now apply matches_version_pattern.
    + intros [-> _]. reflexivity.
Qed.

(** C7: [extract_version_triple] returns the first substring of its input
    of the shape X.Y.Z (leftmost start, and the longest such substring from
    there); it raises the parse error [ValueError] exactly when the input
    has no such substring, and it always does one or the other.  On
    ["algokit 1.2.3 (build 9)"] it returns ["1.2.3"] and on
    ["no version here"] it raises the parse error. *)
Theorem extract_version_triple_first_match :
  (forall s,
      (exists m, extract_version_triple s = Ok m /\ first_triple s m)
      \/ (extract_version_triple s
          = Raise (ValueError "Unable to parse version number")
          /\ forall pre m post, occurs_at s pre m post -> ~ is_triple m))
  /\ (forall s e,
         extract_version_triple s = Raise e <->
         e = ValueError "Unable to parse version number"
         /\ forall pre m post, occurs_at s pre m post -> ~ is_triple m)
  /\ extract_version_triple "algokit 1.2.3 (build 9)" = Ok "1.2.3"
  /\ extract_version_triple "no version here"
     = Raise (ValueError "Unable to parse version number").
Proof.
  split; [|split; [|split; reflexivity]].
  - intros s. destruct (extract_version_triple s) as [m|e] eqn:E.
    + left. exists m. split; [reflexivity|].
      now apply extract_version_triple_ok.
    + right. apply extract_version_triple_raise in E as [-> Hno]. auto.
  - apply extract_version_triple_raise.
Qed.

End VersionTripleFacts.

(** ** Command resolution *)

Module ResolveFacts.
Import Resolve StringFacts.

Lemma split_on_components sep s :
  Forall (fun x => contains_char sep x = false) (split_on sep s).
Proof.
  induction s as [|c s IH]; simpl.
  - constructor; [reflexivity | constructor].
  - destruct (Ascii.eqb c sep) eqn:E.
    + constructor; [reflexivity | exact IH].
    + destruct (split_on sep s) as [|seg rest]; inversion IH; subst;
        constructor; simpl; try rewrite E; auto.
Qed.

Lemma last_Forall {A} (P : A -> Prop) (l : list A) (d : A) :
  P d -> Forall P l -> P (List.last l d).
Proof.
  intros Hd. induction 1 as [|x l Hx Hl IH]; simpl; [exact Hd|].
  destruct l; [exact Hx | exact IH].
Qed.

Lemma Forall_filter_keep {A} (P : A -> Prop) (f : A -> bool) (l : list A) :
  Forall P l -> Forall P (List.filter f l).
Proof.
  induction 1; simpl; [constructor|]. destruct (f x); auto.
Qed.

Lemma posix_name_no_separator cmd : contains_char "/" (posix_name cmd) = false.
Proof.
  unfold posix_name. apply last_Forall; [reflexivity|].
  apply Forall_filter_keep, split_on_components.
Qed.

(** [Path(cmd).name == cmd] holds exactly for a token free of separators
    other than ["."]. *)
Lemma posix_name_fixed cmd :
  posix_name cmd = cmd <-> contains_char "/" cmd = false /\ cmd <> ".".
Proof.
  split.
  - intros H. split.
    + rewrite <- H. apply posix_name_no_separator.
    + intros ->. discriminate.
  - intros [Hsep Hdot]. unfold posix_name. rewrite (split_on_no_sep _ _ Hsep).
    simpl. unfold is_component.
    destruct (String.eqb_spec cmd ""); [subst; reflexivity|].
    destruct (String.eqb_spec cmd "."); [contradiction | reflexivity].
Qed.

Lemma posix_name_eqb cmd :
  negb (String.eqb (posix_name cmd) cmd)
  = (contains_char "/" cmd || String.eqb cmd ".")%bool.
Proof.
  destruct (String.eqb_spec (posix_name cmd) cmd) as [H|H]; simpl.
  - apply posix_name_fixed in H as [-> H].
    symmetry. now apply String.eqb_neq.
  - destruct (contains_char "/" cmd) eqn:Hsep; [reflexivity|]. simpl.
    destruct (String.eqb_spec cmd "."); [reflexivity|].
    elim H. now apply posix_name_fixed.
Qed.







Lemma comprehension_stops {A B} (f : A -> result B) pre x post done e :
  comprehension f pre = Ok done -> f x = Raise e ->
  comprehension f (pre ++ x :: post) = Raise e.
Proof.
  revert done. induction pre as [|a pre IH]; simpl; intros done Hpre Hx.
  - now rewrite Hx.
  - destruct (f a) as [b|e']; [|discriminate]. simpl in *.
    destruct (comprehension f pre) as [bs|e']; [|discriminate].
    now rewrite (IH _ eq_refl Hx).
Qed.

#[local] Arguments resolve_command_path : simpl never.

(** C10, as amended: on the empty list [resolve_command_path] fails with
    the unpacking [ValueError], not with the resolution-failed error;
    [split_and_resolve_command_strings] raises that error when a command
    string splits into zero tokens and every command string before it was
    split and resolved without error; and when every command string splits
    into at least one token the outcome is a list of resolved commands or
    the resolution-failed error, never the unpacking error. *)
Theorem split_and_resolve_unpacking
    (which : string -> option string)
    (split_command_string : string -> result (list string)) :
  (resolve_command_path which [] = Raise unpack_error
   /\ forall cmd, unpack_error <> resolution_failed cmd)
  /\ (forall pre raw post done,
         split_and_resolve_command_strings which split_command_string pre
         = Ok done ->
         split_command_string raw = Ok [] ->
         split_and_resolve_command_strings which split_command_string
           (pre ++ raw :: post)
         = Raise unpack_error)
  /\ (forall commands,
         Forall (fun raw => exists cmd args,
                     split_command_string raw = Ok (cmd :: args)) commands ->
         (exists resolved,
             split_and_resolve_command_strings which split_command_string
               commands = Ok resolved)
         \/ (exists cmd,
             split_and_resolve_command_strings which split_command_string
               commands = Raise (resolution_failed cmd))).
Proof.
  split; [split; [reflexivity | discriminate]|]. split.
  - intros pre raw post done Hpre Hraw.
    unfold split_and_resolve_command_strings in *.
    eapply comprehension_stops; [exact Hpre|]. now rewrite Hraw.
  - unfold split_and_resolve_command_strings.
    induction 1 as [|raw commands (cmd & args & Hraw) _ IH]; simpl.
    + left. eauto.
    + rewrite Hraw. simpl.
      destruct (resolve_command_path which (cmd :: args)) as [r|e] eqn:Hr.
      * simpl. destruct IH as [(rs & ->) | (c & ->)]; simpl; eauto.
      * right. exists cmd. simpl. f_equal.
        unfold resolve_command_path in Hr.
        destruct (negb _); [discriminate|].
        destruct (which cmd) as [[|]|]; congruence.
Qed.

Lemma split_and_resolve_unpacking_witness :
  split_and_resolve_command_strings which_coreutils shlex_plain
    (["true"; "echo hi"] ++ "   " :: ["echo"])
  = Raise unpack_error
  /\ ((exists resolved,
          split_and_resolve_command_strings which_coreutils shlex_plain
            ["true"; "./x y"] = Ok resolved)
      \/ (exists cmd,
          split_and_resolve_command_strings which_coreutils shlex_plain
            ["true"; "./x y"] = Raise (resolution_failed cmd))).
Proof.
  split.
  - apply (proj1 (proj2 (split_and_resolve_unpacking
                           which_coreutils shlex_plain))
             ["true"; "echo hi"] "   " ["echo"]
             [["/usr/bin/true"]; ["/bin/echo"; "hi"]]);
      reflexivity.
  - apply (proj2 (proj2 (split_and_resolve_unpacking
                           which_coreutils shlex_plain))).
    repeat constructor; eexists; eexists; reflexivity.
Defined.

(** C10 fails as stated: the list [["nope"; ""]] holds a string that splits
    into zero tokens, yet the error raised is the resolution-failed error
    of ["nope"], met first, not the unpacking error. *)
Lemma split_and_resolve_earlier_failure :
  shlex_plain "" = Ok []
  /\ split_and_resolve_command_strings which_nothing shlex_plain ["nope"; ""]
     = Raise (ClickException
                "Failed to resolve command path, 'nope' wasn't found")
  /\ split_and_resolve_command_strings which_nothing shlex_plain ["nope"; ""]
     <> Raise unpack_error.
Proof. repeat split. discriminate. Qed.

End ResolveFacts.

(** ** Discovery of a working [pipx] *)

Module PipxFacts.
Import Pipx.

Section Discovery.

Variable run : list string -> result RunResult.
Variable error_message : string.





End Discovery.



End PipxFacts.

(** ** Environment files *)

Module EnvFileFacts.
Import EnvFile.



(** C8 fails as stated: [locked] is a directory, so the file to load is
    [locked/.env]; the directory may not be searched, so that asking
    whether the file exists fails with a [PermissionError]: neither the
    mapping of a file nor the empty mapping comes back, the error does. *)
Lemma load_env_file_locked :
  locked_fs !! ["locked"] = Some Directory
  /\ is_file locked_fs ["locked"] = Ok false
  /\ path_exists locked_fs ["locked"; ".env"]
     = Raise (OSError "[Errno 13] Permission denied: 'locked/.env'")
  /\ load_env_file locked_fs parse_one_line ["locked"]
     = Raise (OSError "[Errno 13] Permission denied: 'locked/.env'").
Proof. repeat split. Qed.

End EnvFileFacts.

(** ** The spinner and its runner *)

Module AnimationFacts.
Import Animation.

Ltac break_step H :=
  repeat match type of H with
         | context [match ?x with _ => _ end] =>
             destruct x eqn:?; try discriminate H
         | context [if ?x then _ else _] =>
             destruct x eqn:?; try discriminate H
         end;
  try (injection H as <-).

(** *** On any stream *)

Section Stream.

Variable stdout : stream.
Variable target_function : option outcome.
Variable animation_text : string.

#[local] Abbreviation step_on :=
  (step_on stdout target_function animation_text).
#[local] Abbreviation turn_on :=
  (turn_on stdout target_function animation_text).
#[local] Abbreviation run_on :=
  (run_on stdout target_function animation_text).

Lemma run_on_app sched1 sched2 s :
  run_on (sched1 ++ sched2) s = run_on sched2 (run_on sched1 s).
Proof. apply fold_left_app. Qed.

(** A property kept by every step holds along every schedule. *)
Lemma run_on_preserves (P : state -> Prop) :
  (forall t s s', P s -> step_on t s = Some s' -> P s') ->
  forall sched s, P s -> P (run_on sched s).
Proof.
  intros Hstep. induction sched as [|t sched IH]; intros s Hs; [exact Hs|].
  simpl. apply IH. unfold Animation.turn_on.
  destruct (step_on t s) eqn:E; [eapply Hstep; eauto | exact Hs].
Qed.

Lemma pace_step_on t s s' :
  pace_invariant s -> step_on t s = Some s' -> pace_invariant s'.
Proof.
  destruct s as [st sp op rn lg].
  unfold pace_invariant, Animation.step_on,
    runner_step, spinner_step, operation_step; simpl.
  intros (Hall & Hhd & Hdur) H.
  destruct t; break_step H; simpl in *;
    try (destruct (sleeps_between_checks lg) as [|n ns] eqn:Hs;
         simpl in *; [|inversion Hall; subst]);
    repeat split; intros;
    repeat match goal with
           | |- Forall _ (_ :: _) => constructor
           end;
    try discriminate; try congruence; intros; eauto; try lia;
    try solve [intuition (try discriminate; try congruence; try lia)].
Qed.

Lemma after_set_step_on t s s' :
  after_set_invariant s -> step_on t s = Some s' -> after_set_invariant s'.
Proof.
  destruct s as [st sp op rn lg].
  unfold after_set_invariant, Animation.step_on,
    runner_step, spinner_step, operation_step; simpl.
  intros Hinv H.
  destruct t; break_step H; simpl in *; intros Hst;
    try discriminate; try (simpl; lia);
    try (specialize (Hinv Hst)); simpl in *; try lia.
  all: destruct (in_frame sp), (before_flush sp); lia.
Qed.















End Stream.


Lemma times_set_one l :
  times_set l = 1%nat -> exists newer older, l = newer ++ StopSet :: older.
Proof.
  unfold times_set. induction l as [|ev l IH]; simpl; [discriminate|].
  destruct ev; simpl; intros H;
    try (destruct (IH H) as (newer & older & ->);
         eexists (_ :: newer), older; reflexivity).
  exists [], l. reflexivity.
Qed.

Lemma times_set_zero l : times_set l = 0%nat -> ~ In StopSet l.
Proof.
  unfold times_set. induction l as [|ev l IH]; simpl; [tauto|].
  destruct ev; simpl; intros H [Hin|Hin];
    try discriminate; try (now apply IH).
Qed.

(** *** On a terminal that takes everything *)

Section Run.

Variable target_function : option outcome.
Variable animation_text : string.

#[local] Abbreviation step := (step target_function animation_text).
#[local] Abbreviation turn := (turn target_function animation_text).
#[local] Abbreviation run := (run target_function animation_text).
#[local] Abbreviation invariant := (invariant target_function).

Lemma run_app sched1 sched2 s : run (sched1 ++ sched2) s = run sched2 (run sched1 s).
Proof. apply run_on_app. Qed.

Lemma run_preserves (P : state -> Prop) :
  (forall t s s', P s -> step t s = Some s' -> P s') ->
  forall sched s, P s -> P (run sched s).
Proof. apply run_on_preserves. Qed.

Lemma control_step t s s' :
  control_invariant target_function s -> step t s = Some s' ->
  control_invariant target_function s'.
Proof.
  destruct s as [st sp op rn lg].
  unfold control_invariant, operation_known, times_set, Animation.step,
    Animation.step_on, runner_step, spinner_step, operation_step, terminal;
    simpl.
  intros (Hflag & Hstart & Hfin & Hjoin & Hh & Hop & Hset & Hlive) H.
  destruct t; destruct rn; simpl in *; break_step H; simpl in *; subst;
    repeat match goal with
           | H : _ /\ _ |- _ => destruct H
           | H : ODone _ = ODone _ |- _ => injection H as ->
           | H : Some _ = Some _ |- _ => injection H as ->
           | H : (exists _, _) |- _ => destruct H
           | H : _ \/ (exists _, _) |- _ => destruct H
           | H : spinner_ended ?a = true |- _ =>
               destruct a; simpl in H; try discriminate H; clear H
           end;
    try discriminate;
    try solve [exfalso; eapply Hlive; reflexivity];
    repeat split; intros; simpl in *;
    try solve [intuition (try discriminate; try congruence; eauto)].
Qed.

Lemma tail_step t s s' :
  control_invariant target_function s -> tail_invariant s ->
  step t s = Some s' -> tail_invariant s'.
Proof.
  destruct s as [st sp op rn lg].
  unfold control_invariant, operation_known, tail_invariant, Animation.step,
    Animation.step_on, runner_step, spinner_step, operation_step, terminal;
    simpl.
  intros (Hflag & Hstart & Hfin & Hjoin & Hh & Hop & Hset & Hlive) Htail H.
  destruct t; destruct rn; simpl in *; break_step H; simpl in *; subst;
    repeat match goal with
           | H : _ /\ _ |- _ => destruct H
           | H : (exists _, _) |- _ => destruct H
           | H : spinner_ended ?a = true |- _ =>
               destruct a; simpl in H; try discriminate H; clear H
           end;
    try discriminate; try exact I;
    try solve [exfalso; eapply Hlive; reflexivity];
    intros;
    try solve [ eauto
              | intuition (try discriminate; try congruence; eauto)
              | destruct Htail as [l ->]; eauto
              | destruct Htail as [l ->]; [|eexists; reflexivity];
                intuition congruence ].
Qed.

Lemma pace_step t s s' :
  pace_invariant s -> step t s = Some s' -> pace_invariant s'.
Proof. apply pace_step_on. Qed.

Lemma after_set_step t s s' :
  after_set_invariant s -> step t s = Some s' -> after_set_invariant s'.
Proof. apply after_set_step_on. Qed.

Lemma invariant_initial : invariant initial.
Proof.
  unfold invariant, control_invariant, tail_invariant, pace_invariant,
    after_set_invariant, operation_known; simpl.
  repeat split; intros; try discriminate; try tauto;
    repeat constructor; intuition discriminate.
Qed.

Lemma invariant_step t s s' :
  invariant s -> step t s = Some s' -> invariant s'.
Proof.
  intros (Hc & Ht & Hp & Ha) H. split; [|split; [|split]].
  - eapply control_step; eauto.
  - eapply tail_step; eauto.
  - eapply pace_step; eauto.
  - eapply after_set_step; eauto.
Qed.

Lemma invariant_run sched : invariant (run sched initial).
Proof.
  apply run_preserves; [exact invariant_step | exact invariant_initial].
Qed.









(** An error outside [Exception] is never handled: the flag stays clear,
    the spinner never returns and the runner never ends. *)
Lemma unhandled_never_stops e sched :
  target_function = Some (Raised e) -> is_Exception e = false ->
  stop (run sched initial) = false
  /\ spinner (run sched initial) <> AReturned
  /\ (forall o, runner (run sched initial) <> RDone o)
  /\ times_set (log (run sched initial)) = 0%nat.
Proof.
  intros Htarget Hexc.
  destruct (invariant_run sched)
    as ((Hflag & _ & Hfin & Hjoin & Hh & Hop & Hset & _) & _).
  unfold operation_known in *.
  assert (Hstop : stop (run sched initial) = false).
  { rewrite Hflag.
    destruct (runner (run sched initial)); simpl in *; try reflexivity;
      destruct Hop as [_ Hop]; rewrite Htarget in Hop;
      try discriminate; injection Hop as <-; simpl in *; congruence. }
  rewrite Hstop in *. repeat split; auto.
  - intros H. specialize (Hfin (or_intror H)). discriminate.
  - intros o H. rewrite H in *. simpl in *. discriminate.
Qed.

Lemma shutdown_step o t s s' :
  runner s = RShutdown o \/ runner s = RDone o ->
  step t s = Some s' ->
  runner s' = RShutdown o \/ runner s' = RDone o.
Proof.
  destruct s as [st sp op rn lg]. simpl.
  unfold Animation.step, Animation.step_on, runner_step, spinner_step,
    operation_step; simpl.
  intros [->| ->] H; destruct t; try discriminate H; break_step H;
    simpl; auto.
Qed.

Lemma shutdown_run o sched s :
  runner s = RShutdown o ->
  runner (run sched s) = RShutdown o \/ runner (run sched s) = RDone o.
Proof.
  intros Hs.
  apply (run_preserves
           (fun s => runner s = RShutdown o \/ runner s = RDone o));
    [|auto].
  intros t s0 s0' H0 E. eapply shutdown_step; eauto.
Qed.

End Run.




(** C1, on the failing input: the operation raises [SystemExit(1)], which
    is not an instance of [Exception].  Under no schedule does the runner
    raise it again (or end at all); after fourteen fair rounds it waits in
    the shutdown of the executor, the flag still clear and the spinner
    still running. *)
Theorem run_with_animation_system_exit :
  is_Exception (SystemExit 1) = false
  /\ ~ (exists sched o,
          runner (run_with_animation (Some (Raised (SystemExit 1)))
                    "Loading" sched)
          = RDone o)
  /\ runner (run_with_animation (Some (Raised (SystemExit 1))) "Loading"
               (rounds 14))
     = RShutdown (Raised (SystemExit 1))
  /\ stop (run_with_animation (Some (Raised (SystemExit 1))) "Loading"
             (rounds 14))
     = false
  /\ spinner (run_with_animation (Some (Raised (SystemExit 1))) "Loading"
                (rounds 14))
     = AFlush (skipn 3 SPINNER_FRAMES).
Proof.
  split; [reflexivity|]. split; [|repeat split].
  intros (sched & o & Hdone).
  destruct (unhandled_never_stops (Some (Raised (SystemExit 1))) "Loading"
              (SystemExit 1) sched eq_refl eq_refl) as (_ & _ & Hnever & _).
  exact (Hnever o Hdone).
Qed.

(** C2, on the failing input: when the operation raises an error that is
    not an instance of [Exception] (such as [SystemExit] or
    [KeyboardInterrupt]), then under every schedule the flag is never set,
    the spinner never returns, the runner never ends, and from the third
    fair round on the runner waits in the shutdown of the executor. *)
Theorem run_with_animation_unhandled_hangs (e : exn) (animation_text : string) :
  is_Exception e = false ->
  forall sched,
    stop (run_with_animation (Some (Raised e)) animation_text sched) = false
    /\ spinner (run_with_animation (Some (Raised e)) animation_text sched)
       <> AReturned
    /\ (forall o,
           runner (run_with_animation (Some (Raised e)) animation_text sched)
           <> RDone o)
    /\ ~ In StopSet
         (events (run_with_animation (Some (Raised e)) animation_text sched))
    /\ runner (run_with_animation (Some (Raised e)) animation_text
                 (rounds 3 ++ sched))
       = RShutdown (Raised e).
Proof.
  intros He sched. unfold run_with_animation.
  destruct (unhandled_never_stops (Some (Raised e)) animation_text e sched
              eq_refl He) as (Hstop & Hsp & Hrun & Hset).
  repeat split; auto.
  - unfold events. rewrite <- in_rev. now apply times_set_zero.
  - destruct (unhandled_never_stops (Some (Raised e)) animation_text e
                (rounds 3 ++ sched) eq_refl He) as (_ & _ & Hnever & _).
    rewrite run_app in *.
    assert (Hat : runner (run (Some (Raised e)) animation_text (rounds 3)
                            initial)
                  = RShutdown (Raised e)).
    { clear -He. destruct e; try discriminate He; simpl in He; subst;
        reflexivity. }
    destruct (shutdown_run (Some (Raised e)) animation_text _ sched _ Hat)
      as [H|H]; [exact H | elim (Hnever _ H)].
Qed.

Lemma run_with_animation_unhandled_hangs_witness :
  is_Exception KeyboardInterrupt = false
  /\ stop (run_with_animation (Some (Raised KeyboardInterrupt)) "Loading"
             (rounds 40))
     = false
  /\ spinner (run_with_animation (Some (Raised KeyboardInterrupt)) "Loading"
                (rounds 40))
     <> AReturned.
Proof.
  split; [reflexivity|].
  pose proof (run_with_animation_unhandled_hangs KeyboardInterrupt "Loading"
                eq_refl (rounds 40)) as H.
  split; [exact (proj1 H) | exact (proj1 (proj2 H))].
Defined.






End AnimationFacts.

(** ** Version helpers: the order and its errors *)

Module VersionOrder.
Import Version StringFacts VersionFacts.









End VersionOrder.

(** ** Version triples feed the comparison *)

Module VersionTripleUse.
Import Version StringFacts VersionFacts VersionTriple VersionTripleFacts
  ResolveFacts.

Lemma triple_segments m :
  is_triple m ->
  exists x y z,
    split_on "." m = [x; y; z]
    /\ numeric_segment x = true /\ numeric_segment y = true
    /\ numeric_segment z = true.
Proof.
  intros (x & y & z & Hx & Hy & Hz & ->). exists x, y, z.
  repeat split; auto.
  change (x +:+ "." +:+ y +:+ "." +:+ z)
    with (x +:+ String "." (y +:+ String "." z)).
  rewrite !split_on_before_sep, split_on_no_sep;
    auto using digits_hold_no_dot, numeric_segment_all_digits.
Qed.









End VersionTripleUse.

(** ** Discovery of a working [pipx]: every outcome *)

Module PipxOutcomes.
Import Pipx PipxFacts PipxProbe.

Section Outcomes.

Variable run : list string -> result RunResult.
Variable error_message : string.






End Outcomes.




End PipxOutcomes.

(** ** The interpreter behind this process *)

Module InterpreterFacts.
Import Version StringFacts VersionFacts VersionTripleFacts VersionTripleUse
  Interpreter.

Lemma string_of_uint_digits u :
  all_digits (DecimalString.NilEmpty.string_of_uint u) = true.
Proof. induction u; simpl; auto. Qed.

Lemma to_uint_not_nil n : Nat.to_uint n <> Decimal.Nil.
Proof.
  rewrite <- (DecimalNat.Unsigned.of_to n) at 1.
  rewrite DecimalNat.Unsigned.to_of. apply DecimalFacts.unorm_nonnil.
Qed.

Lemma decimal_digits n : numeric_segment (decimal n) = true.
Proof.
  unfold decimal. pose proof (to_uint_not_nil n) as Hn.
  pose proof (string_of_uint_digits (Nat.to_uint n)) as Hd.
  destruct (Nat.to_uint n); [contradiction | ..]; exact Hd.
Qed.

Lemma rfind_none c s : contains_char c s = false -> rfind c s = None.
Proof.
  induction s as [|d s IH]; simpl; [reflexivity|].
  intros H. apply orb_false_iff in H as [Hd Hs].
  now rewrite (IH Hs), Hd.
Qed.

Lemma rfind_last c pre r :
  contains_char c r = false ->
  rfind c (pre +:+ String c r) = Some (String.length pre).
Proof.
  intros Hr. induction pre as [|d pre IH]; simpl.
  - now rewrite (rfind_none _ _ Hr), Ascii.eqb_refl.
  - now rewrite IH.
Qed.

(** On a name [stem.digits] the new suffix replaces the digits. *)
Lemma with_suffix_digits stem ds suffix :
  stem <> "" -> numeric_segment ds = true ->
  with_suffix (stem +:+ String "." ds) suffix = stem +:+ suffix.
Proof.
  intros Hstem Hds. pose proof (numeric_segment_all_digits _ Hds) as Hall.
  assert (Hlstem : (0 < String.length stem)%nat)
    by (destruct stem; [contradiction | simpl; lia]).
  assert (Hlds : (0 < String.length ds)%nat)
    by (destruct ds; [discriminate | simpl; lia]).
  assert (Hsuf : name_suffix (stem +:+ String "." ds) = String "." ds).
  { unfold name_suffix.
    rewrite (rfind_last "." stem ds (digits_hold_no_dot _ Hall)).
    rewrite length_append.
    change (String.length (String "." ds)) with (S (String.length ds)).
    assert (Hc : ((0 <? String.length stem)
                  && (String.length stem
                      <? String.length stem + S (String.length ds) - 1))%nat
                 = true)
      by (apply andb_true_iff; split; apply Nat.ltb_lt; lia).
    rewrite Hc.
    replace (String.length stem + S (String.length ds)
             - String.length stem)%nat
      with (String.length (String "." ds)) by (simpl; lia).
    rewrite <- (append_empty_r (String "." ds)) at 2.
    apply substring_occurrence. }
  unfold with_suffix. rewrite Hsuf.
  replace (String.length (stem +:+ String "." ds)
           - String.length (String "." ds))%nat
    with (String.length stem) by (rewrite length_append; lia).
  now rewrite substring_prefix.
Qed.






(** The third name tried in the home of the base interpreter,
    [python3.<minor>], loses its minor version on Windows: [with_suffix]
    takes [.<minor>] for the suffix to replace, so the file looked for is
    [python3.exe] a second time and never [python3.<minor>.exe].  Hence in
    a virtual environment on Windows whose executable is no symlink, when
    the home holds neither [python.exe] nor [python3.exe] the function
    returns [sys.executable], whatever else the home holds; on the other
    platforms [python3.<minor>] is looked for as it is. *)
Theorem get_base_python_path_windows_minor (h : host) :
  with_suffix ("python3." +:+ decimal (version_minor h)) ".exe"
  = "python3.exe"
  /\ (forall this_python base_home,
         sys_executable h = Some this_python ->
         this_python <> "" ->
         ends_with this_python "algokit" = false ->
         String.eqb (sys_prefix h) (sys_base_prefix h) = false ->
         is_symlink h this_python = Ok false ->
         sys_home h = Some base_home -> base_home <> "" ->
         is_file_in h base_home "python.exe" = Ok false ->
         is_file_in h base_home "python3.exe" = Ok false ->
         platform_system h = "Windows" ->
         get_base_python_path h = Ok (Some this_python))
  /\ (forall this_python base_home,
         sys_executable h = Some this_python ->
         this_python <> "" ->
         ends_with this_python "algokit" = false ->
         String.eqb (sys_prefix h) (sys_base_prefix h) = false ->
         is_symlink h this_python = Ok false ->
         sys_home h = Some base_home -> base_home <> "" ->
         is_file_in h base_home "python" = Ok false ->
         is_file_in h base_home "python3" = Ok false ->
         is_file_in h base_home ("python3." +:+ decimal (version_minor h))
         = Ok true ->
         platform_system h <> "Windows" ->
         get_base_python_path h
         = Ok (Some (path_in h base_home
                       ("python3." +:+ decimal (version_minor h))))).
Proof.
  assert (Hminor : with_suffix ("python3." +:+ decimal (version_minor h))
                     ".exe" = "python3.exe").
  { apply (with_suffix_digits "python3" (decimal (version_minor h)) ".exe");
      [discriminate | apply decimal_digits]. }
  split; [exact Hminor|]. split.
  - intros this home Hexe Hne Hend Hvenv Hlink Hhome Hhne Hpy Hpy3 Hwin.
    unfold get_base_python_path. rewrite Hexe.
    destruct this as [|c this]; [contradiction|].
    rewrite Hend, Hvenv, Hlink. unfold from_home. rewrite Hhome.
    destruct home as [|d home]; [contradiction|].
    rewrite Hwin. simpl String.eqb. unfold candidate_names.
    cbn [first_candidate]. rewrite Hminor.
    change (with_suffix "python" ".exe") with "python.exe".
    change (with_suffix "python3" ".exe") with "python3.exe".
    rewrite Hpy, Hpy3. reflexivity.
  - intros this home Hexe Hne Hend Hvenv Hlink Hhome Hhne Hpy Hpy3 Hpyn Hwin.
    unfold get_base_python_path. rewrite Hexe.
    destruct this as [|c this]; [contradiction|].
    rewrite Hend, Hvenv, Hlink. unfold from_home. rewrite Hhome.
    destruct home as [|d home]; [contradiction|].
    apply String.eqb_neq in Hwin. rewrite Hwin. unfold candidate_names.
    cbn [first_candidate]. rewrite Hpy, Hpy3, Hpyn. reflexivity.
Qed.

Lemma get_base_python_path_windows_minor_witness :
  is_file_in windows_venv "C:\Python311" "python3.11.exe" = Ok true
  /\ get_base_python_path windows_venv
     = Ok (Some "C:\venv\Scripts\python.exe").
Proof.
  split; [reflexivity|].
  apply (proj1 (proj2 (get_base_python_path_windows_minor windows_venv))
           "C:\venv\Scripts\python.exe" "C:\Python311");
    first [reflexivity | discriminate].
Defined.

End InterpreterFacts.

(** ** Command resolution: what it keeps and what it raises *)

Module ResolveShape.
Import Resolve StringFacts ResolveFacts ResolveBatch.

Lemma resolve_command_path_ok which command out :
  resolve_command_path which command = Ok out ->
  exists cmd args cmd',
    command = cmd :: args /\ out = cmd' :: args
    /\ ((cmd' = cmd
         /\ (contains_char "/" cmd = true \/ cmd = "."))
        \/ (which cmd = Some cmd' /\ cmd' <> ""
            /\ contains_char "/" cmd = false /\ cmd <> ".")).
Proof.
  destruct command as [|cmd args]; [discriminate|].
  unfold resolve_command_path. rewrite posix_name_eqb.
  destruct (contains_char "/" cmd) eqn:Hsep; simpl.
  - intros [= <-]. exists cmd, args, cmd. auto 6.
  - destruct (String.eqb_spec cmd ".") as [->|Hdot].
    + intros [= <-]. exists ".", args, ".". auto 6.
    + destruct (which cmd) as [[|c p]|] eqn:Hw; try discriminate.
      intros [= <-]. exists cmd, args, (String c p).
      split; [reflexivity|]. split; [reflexivity|]. right.
      split; [exact Hw|]. split; [discriminate|]. auto.
Qed.

Lemma resolve_command_path_raise which command e :
  resolve_command_path which command = Raise e ->
  (command = [] /\ e = unpack_error)
  \/ (exists cmd args,
         command = cmd :: args /\ e = resolution_failed cmd
         /\ contains_char "/" cmd = false /\ cmd <> "."
         /\ (which cmd = None \/ which cmd = Some "")).
Proof.
  destruct command as [|cmd args]; [intros [= <-]; auto|].
  unfold resolve_command_path. rewrite posix_name_eqb.
  destruct (contains_char "/" cmd) eqn:Hsep; simpl; [discriminate|].
  destruct (String.eqb_spec cmd ".") as [->|Hdot]; [discriminate|].
  destruct (which cmd) as [[|c p]|] eqn:Hw; try discriminate;
    intros [= <-]; right; exists cmd, args; auto 8.
Qed.

(** [resolve_command_path] touches the first token only: the arguments come
    back as they went in and the list keeps its length.  Where the search
    path answers with paths that hold a separator, as absolute paths do,
    resolving a resolved command changes nothing.  The only errors are the
    unpacking error, on the empty list, and the resolution-failed error,
    for a first token without separator that the search path does not
    know. *)
Theorem resolve_command_path_stable (which : string -> option string) :
  (forall command out,
      resolve_command_path which command = Ok out ->
      List.length out = List.length command
      /\ tl out = tl command
      /\ (hd "" out = hd "" command \/ which (hd "" command) = Some (hd "" out)))
  /\ ((forall cmd path, which cmd = Some path ->
                        contains_char "/" path = true) ->
      forall command out,
        resolve_command_path which command = Ok out ->
        resolve_command_path which out = Ok out)
  /\ (forall command e,
         resolve_command_path which command = Raise e ->
         (command = [] /\ e = unpack_error)
         \/ (exists cmd args,
                command = cmd :: args /\ e = resolution_failed cmd
                /\ contains_char "/" cmd = false
                /\ (which cmd = None \/ which cmd = Some ""))).
Proof.
  split; [|split].
  - intros command out H.
    destruct (resolve_command_path_ok _ _ _ H)
      as (cmd & args & cmd' & -> & -> & [[-> _] | (Hw & _)]); simpl; auto.
  - intros Hwhich command out H.
    destruct (resolve_command_path_ok _ _ _ H)
      as (cmd & args & cmd' & -> & -> & [[-> Hun] | (Hw & _)]).
    + exact H.
    + unfold resolve_command_path. rewrite posix_name_eqb.
      now rewrite (Hwhich _ _ Hw).
  - intros command e H.
    destruct (resolve_command_path_raise _ _ _ H)
      as [?|(cmd & args & ? & ? & ? & _ & ?)]; eauto 8.
Qed.

Lemma which_coreutils_paths cmd path :
  which_coreutils cmd = Some path -> contains_char "/" path = true.
Proof.
  unfold which_coreutils.
  destruct (String.eqb cmd "true"); [intros [= <-]; reflexivity|].
  destruct (String.eqb cmd "echo"); [intros [= <-]; reflexivity|].
  discriminate.
Defined.

Lemma resolve_command_path_stable_witness :
  resolve_command_path which_coreutils ["/bin/echo"; "a b"; "-n"]
  = Ok ["/bin/echo"; "a b"; "-n"]
  /\ tl ["/bin/echo"; "a b"; "-n"] = tl ["echo"; "a b"; "-n"].
Proof.
  split.
  - apply (proj1 (proj2 (resolve_command_path_stable which_coreutils))
             which_coreutils_paths ["echo"; "a b"; "-n"]).
    reflexivity.
  - apply (proj1 (resolve_command_path_stable which_coreutils)
             ["echo"; "a b"; "-n"] ["/bin/echo"; "a b"; "-n"]).
    reflexivity.
Defined.

Section Batch.

Variable which : string -> option string.
Variable split_command_string : string -> result (list string).

#[local] Abbreviation split_and_resolve_one :=
  (split_and_resolve_one which split_command_string).

Lemma split_and_resolve_cons raw commands :
  split_and_resolve_command_strings which split_command_string
    (raw :: commands)
  = (r ← split_and_resolve_one raw;
     rs ← split_and_resolve_command_strings which split_command_string
            commands;
     Ok (r :: rs)).
Proof. reflexivity. Qed.

Lemma split_and_resolve_ok commands :
  forall out,
    split_and_resolve_command_strings which split_command_string commands
    = Ok out ->
    Forall2 (fun raw r => split_and_resolve_one raw = Ok r) commands out.
Proof.
  induction commands as [|raw commands IH]; intros out.
  - intros [= <-]. constructor.
  - rewrite split_and_resolve_cons.
    destruct (split_and_resolve_one raw) as [r|e] eqn:Hr; [|discriminate].
    simpl.
    destruct (split_and_resolve_command_strings which split_command_string
                commands) as [rs|e]; [|discriminate].
    simpl. intros [= <-]. constructor; [exact Hr | now apply IH].
Qed.

Lemma split_and_resolve_raise commands :
  forall e,
    split_and_resolve_command_strings which split_command_string commands
    = Raise e ->
    exists pre raw post done,
      commands = pre ++ raw :: post
      /\ split_and_resolve_command_strings which split_command_string pre
         = Ok done
      /\ split_and_resolve_one raw = Raise e.
Proof.
  induction commands as [|raw commands IH]; intros e; [discriminate|].
  rewrite split_and_resolve_cons.
  destruct (split_and_resolve_one raw) as [r|e'] eqn:Hr.
  - simpl.
    destruct (split_and_resolve_command_strings which split_command_string
                commands) as [rs|e'] eqn:Hrs; [discriminate|].
    simpl. intros [= <-].
    destruct (IH _ eq_refl) as (pre & raw' & post & done & -> & Hpre & Hraw).
    exists (raw :: pre), raw', post, (r :: done). repeat split; auto.
    rewrite split_and_resolve_cons, Hr, Hpre. reflexivity.
  - simpl. intros [= <-]. exists [], raw, commands, []. auto.
Qed.

End Batch.

(** [split_and_resolve_command_strings] answers command by command: on
    success there is one resolved command for each command string, in the
    same order, and its arguments are the tokens the string was split into,
    the first one apart; on failure the error is that of the first command
    string that cannot be split or resolved, raised as it is, and every
    command string before it was split and resolved. *)
Theorem split_and_resolve_command_by_command
    (which : string -> option string)
    (split_command_string : string -> result (list string)) :
  (forall commands out,
      split_and_resolve_command_strings which split_command_string commands
      = Ok out ->
      List.length out = List.length commands
      /\ Forall2
           (fun raw resolved =>
              exists tokens,
                split_command_string raw = Ok tokens
                /\ resolve_command_path which tokens = Ok resolved
                /\ tl resolved = tl tokens)
           commands out)
  /\ (forall commands e,
         split_and_resolve_command_strings which split_command_string commands
         = Raise e ->
         exists pre raw post done,
           commands = pre ++ raw :: post
           /\ split_and_resolve_command_strings which split_command_string
                pre = Ok done
           /\ (split_command_string raw = Raise e
               \/ exists tokens,
                   split_command_string raw = Ok tokens
                   /\ resolve_command_path which tokens = Raise e)).
Proof.
  split.
  - intros commands out H.
    pose proof (split_and_resolve_ok which split_command_string _ _ H) as HF.
    split; [symmetry; eapply Forall2_length; eauto|].
    eapply Forall2_impl; [exact HF|].
    intros raw r Hone. unfold split_and_resolve_one in Hone.
    destruct (split_command_string raw) as [tokens|e]; [|discriminate].
    simpl in Hone. exists tokens. repeat split; auto.
    destruct (resolve_command_path_ok _ _ _ Hone)
      as (cmd & args & cmd' & -> & -> & _). reflexivity.
  - intros commands e H.
    destruct (split_and_resolve_raise which split_command_string _ _ H)
      as (pre & raw & post & done & -> & Hpre & Hraw).
    exists pre, raw, post, done. repeat split; auto.
    unfold split_and_resolve_one in Hraw.
    destruct (split_command_string raw) as [tokens|e'] eqn:Hs.
    + right. exists tokens. auto.
    + left. simpl in Hraw. congruence.
Qed.

Lemma split_and_resolve_command_by_command_witness :
  List.length [["/usr/bin/true"]; ["/bin/echo"; "hi"; "there"]] = 2%nat
  /\ exists pre raw post done,
      ["true"; "echo 'a"; "nope"] = pre ++ raw :: post
      /\ split_and_resolve_command_strings which_coreutils shlex_quotes pre
         = Ok done
      /\ (shlex_quotes raw = Raise (ValueError "No closing quotation")
          \/ exists tokens,
              shlex_quotes raw = Ok tokens
              /\ resolve_command_path which_coreutils tokens
                 = Raise (ValueError "No closing quotation")).
Proof.
  split.
  - apply (proj1 (split_and_resolve_command_by_command
                    which_coreutils shlex_plain)
             ["true"; "echo hi there"]).
    reflexivity.
  - apply (proj2 (split_and_resolve_command_by_command
                    which_coreutils shlex_quotes)).
    reflexivity.
Defined.

End ResolveShape.

(** ** The spinner and its runner: order of events, and the terminal *)

Module AnimationOrder.
Import Animation AnimationTrace AnimationFacts.

Ltac break_step H :=
  repeat match type of H with
         | context [match ?x with _ => _ end] =>
             destruct x eqn:?; try discriminate H
         | context [if ?x then _ else _] =>
             destruct x eqn:?; try discriminate H
         end;
  try (injection H as <-).

Lemma writes_app a b : writes (a ++ b) = writes a ++ writes b.
Proof. unfold writes. apply flat_map_app. Qed.

Lemma writes_newest ev lg :
  writes (rev (ev :: lg))
  = writes (rev lg) ++ match ev with
                       | Wrote text => [text]
                       | _ => []
                       end.
Proof. simpl. rewrite writes_app. simpl. destruct ev; reflexivity. Qed.


Lemma set_after_completion_split newer :
  forall older,
    set_after_completion (newer ++ StopSet :: older) ->
    exists o, In (Completed o) older.
Proof.
  induction newer as [|ev newer IH]; intros older; simpl.
  - intros [H _]. exact H.
  - destruct ev; try apply IH. intros [_ H]. now apply IH.
Qed.

Section Run.

Variable target_function : option outcome.
Variable animation_text : string.

Lemma completion_step t s s' :
  control_invariant target_function s ->
  completion_invariant target_function s ->
  step target_function animation_text t s = Some s' ->
  completion_invariant target_function s'.
Proof.
  destruct s as [st sp op rn lg].
  unfold control_invariant, operation_known, completion_invariant,
    Animation.step, Animation.step_on, runner_step, spinner_step,
    operation_step, terminal; simpl.
  intros (_ & _ & _ & _ & _ & Hop & _ & Hlive) (Hdone & Hlog & Hset) H.
  destruct t; destruct rn; simpl in *; break_step H; simpl in *; subst;
    repeat match goal with
           | H : _ /\ _ |- _ => destruct H
           end;
    try solve [exfalso; eapply Hlive; reflexivity];
    try discriminate;
    (split; [|split]); simpl; intros;
    repeat match goal with
           | H : ODone _ = ODone _ |- _ => injection H as ->
           | H : _ \/ _ |- _ => destruct H
           | H : Completed _ = Completed _ |- _ => injection H as ->
           end;
    try discriminate; eauto.
Qed.

Lemma completion_run sched :
  completion_invariant target_function
    (run target_function animation_text sched initial).
Proof.
  assert (H : control_invariant target_function
                (run target_function animation_text sched initial)
              /\ completion_invariant target_function
                   (run target_function animation_text sched initial)).
  { apply (run_preserves target_function animation_text
             (fun s => control_invariant target_function s
                       /\ completion_invariant target_function s)).
    - intros t s s' [Hc Hi] Hs. split.
      + eapply control_step; eauto.
      + eapply completion_step; eauto.
    - split; [apply (invariant_initial target_function)|].
      repeat split; simpl; intros; try discriminate; tauto. }
  apply H.
Qed.



End Run.

(** The flag is set only after the operation has ended: in every run, a
    setting of the flag has the end of the operation before it, and the
    outcome logged there is the operation's.  So there is no timeout: while
    the operation runs, and for ever if it never ends, the flag stays
    clear, the spinner does not return and the runner does not end. *)
Theorem flag_set_after_completion
    (target_function : option outcome) (animation_text : string) :
  (forall sched before after,
      events (run_with_animation target_function animation_text sched)
      = before ++ StopSet :: after ->
      exists o, In (Completed o) before /\ target_function = Some o)
  /\ (forall sched,
         ~ (exists o,
               In (Completed o)
                 (events
                    (run_with_animation target_function animation_text
                       sched))) ->
         stop (run_with_animation target_function animation_text sched)
         = false
         /\ spinner (run_with_animation target_function animation_text sched)
            <> AReturned
         /\ forall o,
             runner (run_with_animation target_function animation_text sched)
             <> RDone o)
  /\ (target_function = None ->
      forall sched,
        ~ (exists o,
              In (Completed o)
                (events
                   (run_with_animation target_function animation_text
                      sched)))).
Proof.
  unfold run_with_animation, run_with_animation_on, events.
  change (run_on terminal) with run.
  assert (Hfirst : forall sched before after,
             rev (log (run target_function animation_text sched initial))
             = before ++ StopSet :: after ->
             exists o, In (Completed o) before /\ target_function = Some o).
  { intros sched before after Hev.
    destruct (completion_run target_function animation_text sched)
      as (_ & Hlog & Hset).
    apply (f_equal (@rev event)) in Hev.
    rewrite rev_involutive, rev_app_distr in Hev. simpl in Hev.
    rewrite <- app_assoc in Hev. simpl in Hev.
    rewrite Hev in Hset.
    destruct (set_after_completion_split _ _ Hset) as (o & Ho).
    exists o. split; [now apply in_rev|].
    apply Hlog. rewrite Hev. apply in_or_app. right. now right. }
  split; [exact Hfirst|]. split.
  - intros sched Hnone.
    destruct (invariant_run target_function animation_text sched)
      as ((Hflag & _ & Hfin & _ & _ & _ & Hset & _) & _).
    assert (Hstop : stop (run target_function animation_text sched initial)
                    = false).
    { destruct (stop _) eqn:E; [|reflexivity]. exfalso.
      destruct (times_set_one _ Hset) as (newer & older & Hlog).
      destruct (Hfirst sched (rev older) (rev newer)) as (o & Ho & _).
      - rewrite Hlog, rev_app_distr. simpl. now rewrite <- app_assoc.
      - apply Hnone. exists o. rewrite Hlog, rev_app_distr. simpl.
        apply in_or_app. left. apply in_or_app. now left. }
    split; [exact Hstop|]. split.
    + intros H. rewrite (Hfin (or_intror H)) in Hstop. discriminate.
    + intros o H. rewrite Hflag, H in Hstop. discriminate.
  - intros Hnever sched (o & Ho).
    destruct (completion_run target_function animation_text sched)
      as (_ & Hlog & _).
    apply in_rev in Ho. apply Hlog in Ho. congruence.
Qed.

Lemma flag_set_after_completion_witness :
  (exists o,
      In (Completed o) [Checked false; Completed (Returned PyNone);
                        Checked false]
      /\ Some (Returned PyNone) = Some o)
  /\ stop (run_with_animation None "Loading" (rounds 30)) = false.
Proof.
  split.
  - apply (proj1 (flag_set_after_completion (Some (Returned PyNone))
                    "Loading")
             ([Runner; Runner; Spinner; Operation; Spinner; Runner; Runner]
              ++ [Spinner])
             [Checked false; Completed (Returned PyNone); Checked false]
             [Wrote (CR +:+ "⠋" +:+ " Loading")]).
    reflexivity.
  - apply (proj1 (proj2 (flag_set_after_completion None "Loading"))
             (rounds 30)).
    apply (proj2 (proj2 (flag_set_after_completion None "Loading"))
             eq_refl).
Defined.

(** When the runner has ended, every activity has: no further step is
    possible, so nothing is written to the terminal and nothing else
    happens afterwards, whatever the schedule. *)
Theorem run_with_animation_ends_quiet
    (target_function : option outcome) (animation_text : string)
    (sched : list thread) (o : outcome) :
  runner (run_with_animation target_function animation_text sched) = RDone o ->
  (forall t,
      step target_function animation_text t
        (run_with_animation target_function animation_text sched)
      = None)
  /\ forall more,
      run_with_animation target_function animation_text (sched ++ more)
      = run_with_animation target_function animation_text sched.
Proof.
  unfold run_with_animation, run_with_animation_on.
  change (run_on terminal) with run. intros Hdone.
  destruct (invariant_run target_function animation_text sched)
    as ((_ & _ & _ & Hjoin & _ & Hop & _) & _).
  unfold operation_known in Hop. rewrite Hdone in *. simpl in *.
  destruct Hop as [Hop _]. specialize (Hjoin eq_refl).
  assert (Hquiet : forall t,
             step target_function animation_text t
               (run target_function animation_text sched initial) = None).
  { intros t.
    destruct (run target_function animation_text sched initial)
      as [st sp op rn lg].
    simpl in *. subst. destruct t; reflexivity. }
  split; [exact Hquiet|].
  intros more. rewrite run_app.
  induction more as [|t more IH]; [reflexivity|].
  change (run target_function animation_text (t :: more)
            (run target_function animation_text sched initial))
    with (run target_function animation_text more
            (turn target_function animation_text
               (run target_function animation_text sched initial) t)).
  unfold turn, turn_on. change (step_on terminal) with step.
  rewrite Hquiet. exact IH.
Qed.

Lemma run_with_animation_ends_quiet_witness :
  runner (run_with_animation (Some (Returned (PyStr "ok"))) "Loading"
            (rounds 14))
  = RDone (Returned (PyStr "ok"))
  /\ run_with_animation (Some (Returned (PyStr "ok"))) "Loading"
       (rounds 14 ++ [Spinner; Spinner; Runner; Operation])
     = run_with_animation (Some (Returned (PyStr "ok"))) "Loading"
         (rounds 14).
Proof.
  split; [reflexivity|].
  apply (proj2 (run_with_animation_ends_quiet
                  (Some (Returned (PyStr "ok"))) "Loading" (rounds 14)
                  (Returned (PyStr "ok")) eq_refl)).
Defined.



End AnimationOrder.
